(** * DefaultTransceiverController: video transceiver reconciliation

    A shallow embedding of
    [src/transceivercontroller/DefaultTransceiverController.ts]
    together with the properties of its reconciliation pass
    ([updateVideoTransceivers] / [updateTransceivers]), of [reset] and of
    [setEncodingParameters].

    Transceivers are mutable browser objects shared between the peer
    connection's list, the controller's [_localCameraTransceiver] field and
    the [streamIdToTransceiver] map.  They live here in one store, the peer
    connection's transceiver list, and every other place holds a reference:
    the position of the object in that list.  The browser never removes a
    transceiver from a connection, so positions are stable. *)

From stdpp Require Import gmap strings list fin_maps.
From Stdlib Require Import ZArith Lia.
From Corelib Require Import PrimFloat FloatAxioms.
From Corelib Require SpecFloat FloatOps.

(** ** Browser objects *)

(** Stream ids are integer-valued JavaScript numbers, which the
    controller compares and stores and never computes with; [0] marks an
    unused slot. *)
Abbreviation StreamId := Z (only parsing).

(** A reference to a transceiver object: its position in the connection. *)
Abbreviation TransceiverRef := nat (only parsing).

Inductive RTCRtpTransceiverDirection :=
  | sendrecv | sendonly | recvonly | inactive | stopped.

Global Instance direction_eq_dec : EqDecision RTCRtpTransceiverDirection.
Proof. solve_decision. Defined.

Inductive TrackKind := audio | video.

Global Instance kind_eq_dec : EqDecision TrackKind.
Proof. solve_decision. Defined.

(** JavaScript numbers are IEEE 754 doubles: the kernel's binary64
    floats, whose arithmetic rounds to nearest even and whose comparisons
    are false on [NaN], as in JavaScript. *)
Global Instance float_eq_dec : EqDecision float.
Proof.
  intros x y. destruct (PrimFloat.Leibniz.eqb x y) eqn:H; [left|right].
  - by apply FloatAxioms.Leibniz.eqb_spec.
  - intros Heq. apply FloatAxioms.Leibniz.eqb_spec in Heq. congruence.
Defined.

(** Values stored in the fields of an encoding dictionary. *)
Inductive JsValue :=
  | JsUndefined
  | JsBool (b : bool)
  | JsNumber (x : float)
  | JsString (s : string).

Global Instance jsvalue_eq_dec : EqDecision JsValue.
Proof. solve_decision. Defined.

(** [RTCRtpEncodingParameters]: a plain object, as its own properties. *)
Abbreviation RTCRtpEncodingParameters := (gmap string JsValue) (only parsing).

(** [RTCRtpSendParameters]; [encodings] may be missing. *)
Record RTCRtpSendParameters := {
  encodings : option (list RTCRtpEncodingParameters)
}.

(** The part of [RTCRtpTransceiver] the controller reads and writes.
    [receiverTrack] is [receiver.track.kind] when receiver and track exist,
    likewise [senderTrack]; [senderParameters] is what
    [sender.getParameters()] returns. *)
Record RTCRtpTransceiver := {
  mid : option string;
  direction : RTCRtpTransceiverDirection;
  receiverTrack : option TrackKind;
  senderTrack : option TrackKind;
  senderParameters : RTCRtpSendParameters
}.

Definition withDirection (d : RTCRtpTransceiverDirection)
    (t : RTCRtpTransceiver) : RTCRtpTransceiver :=
  {| mid := mid t; direction := d; receiverTrack := receiverTrack t;
     senderTrack := senderTrack t; senderParameters := senderParameters t |}.

Definition withSenderParameters (p : RTCRtpSendParameters)
    (t : RTCRtpTransceiver) : RTCRtpTransceiver :=
  {| mid := mid t; direction := direction t; receiverTrack := receiverTrack t;
     senderTrack := senderTrack t; senderParameters := p |}.

(** [transceiver.direction = d] on the object behind reference [i]. *)
Definition setDirection (i : TransceiverRef) (d : RTCRtpTransceiverDirection)
    (ts : list RTCRtpTransceiver) : list RTCRtpTransceiver :=
  alter (withDirection d) i ts.

(** [RTCPeerConnection]: its transceivers in creation order, and whether the
    browser defines [getTransceivers] on it. *)
Record RTCPeerConnection := {
  transceivers : list RTCRtpTransceiver;
  getTransceiversDefined : bool
}.

(** [peer.addTransceiver('video', {direction, streams})]: the browser
    appends a fresh transceiver whose receiver carries a video track and
    whose [mid] is [null] until the next negotiation; the result is the
    list and the reference to the new object. *)
Definition freshTransceiver (kind : TrackKind)
    (d : RTCRtpTransceiverDirection) : RTCRtpTransceiver :=
  {| mid := None; direction := d; receiverTrack := Some kind;
     senderTrack := None; senderParameters := {| encodings := None |} |}.

Definition addTransceiver (kind : TrackKind) (d : RTCRtpTransceiverDirection)
    (ts : list RTCRtpTransceiver) : list RTCRtpTransceiver * TransceiverRef :=
  (ts ++ [freshTransceiver kind d], length ts).

(** ** Collaborators *)

(** The consumed part of the [VideoStreamIndex] interface. *)
Record VideoStreamIndex := {
  streamIdForTrack : string → option StreamId;
  StreamIdsInSameGroup : StreamId → StreamId → bool
}.

(** Modelled from the spec: the [VideoStreamIdSet] interface, whose
    implementation is not among the sources.  A set is represented by its
    members in the order [array()] lists them; [clone()] is a deep copy.
    Set semantics (no member listed twice) is the hypothesis [NoDup] of
    the theorems that depend on it. *)
Record VideoStreamIdSet := { ids : list StreamId }.

Definition array (s : VideoStreamIdSet) : list StreamId := ids s.

Definition clone (s : VideoStreamIdSet) : VideoStreamIdSet :=
  {| ids := ids s |}.

(** ** The controller *)

(** The fields of [DefaultTransceiverController].  [peer] is [None] for
    [null]; the connection object itself is part of the [World] below. *)
Record Controller := {
  _localCameraTransceiver : option TransceiverRef;
  _localAudioTransceiver : option TransceiverRef;
  videoSubscriptions : list StreamId;
  defaultMediaStream : option unit;
  peer : option unit;
  streamIdToTransceiver : gmap Z nat
}.

(** The controller, the connection it may point to, and
    [browserBehavior.requiresUnifiedPlan()]. *)
Record World := {
  ctl : Controller;
  connection : RTCPeerConnection;
  requiresUnifiedPlan : bool
}.

Definition initialController : Controller :=
  {| _localCameraTransceiver := None; _localAudioTransceiver := None;
     videoSubscriptions := []; defaultMediaStream := None; peer := None;
     streamIdToTransceiver := ∅ |}.

Definition reset (w : World) : World :=
  {| ctl := {| _localCameraTransceiver := None;
               _localAudioTransceiver := None;
               videoSubscriptions := [];
               defaultMediaStream := None;
               peer := None;
               streamIdToTransceiver := streamIdToTransceiver (ctl w) |};
     connection := connection w;
     requiresUnifiedPlan := requiresUnifiedPlan w |}.

Definition useTransceivers (w : World) : bool :=
  match peer (ctl w) with
  | None => false
  | Some _ =>
      if negb (requiresUnifiedPlan w) then false
      else getTransceiversDefined (connection w)
  end.

Definition transceiverIsVideo (t : RTCRtpTransceiver) : bool :=
  bool_decide (receiverTrack t = Some video)
  || bool_decide (senderTrack t = Some video).

(** ** Reconciliation *)

(** [a[n] = v] on a JavaScript array of numbers.  Inside the array the
    element is replaced, at [n = a.length] the array grows by one.  Further
    out JavaScript leaves holes; [updateTransceivers] never writes there
    (lemma [loopTransceivers_subs]), and the holes are written as [0]. *)
Definition arraySet (a : list StreamId) (n : nat) (v : StreamId)
    : list StreamId :=
  if decide (n < length a) then <[n := v]> a
  else a ++ replicate (n - length a) 0%Z ++ [v].

(** [a.splice(index, 1)]. *)
Definition splice1 (index : nat) (a : list StreamId) : list StreamId :=
  take index a ++ drop (S index) a.

(** [a.entries()]. *)
Definition entries (a : list StreamId) : list (nat * StreamId) :=
  imap (λ index x, (index, x)) a.

(** The state [updateTransceivers] works on: the transceiver objects,
    [this.videoSubscriptions], [this.streamIdToTransceiver] and the local
    [videosRemaining]. *)
Record Recon := {
  objs : list RTCRtpTransceiver;
  subs : list StreamId;
  bindings : gmap Z nat;
  videosRemaining : list StreamId
}.

(** ['v_' + transceiver.mid]. *)
Definition trackId (t : RTCRtpTransceiver) : string :=
  "v_" +:+ match mid t with Some m => m | None => "null" end.

Definition setObjs (o : list RTCRtpTransceiver) (r : Recon) : Recon :=
  {| objs := o; subs := subs r; bindings := bindings r;
     videosRemaining := videosRemaining r |}.

Definition setSubs (s : list StreamId) (r : Recon) : Recon :=
  {| objs := objs r; subs := s; bindings := bindings r;
     videosRemaining := videosRemaining r |}.

(** The inner loop (lines 239-252) over [videosRemaining.entries()] for the
    transceiver behind [i], at subscription position [n], whose track
    resolved to [streamId]. *)
Fixpoint scanRemaining (vsi : VideoStreamIndex) (i : TransceiverRef) (n : nat)
    (streamId : StreamId) (es : list (nat * StreamId)) (r : Recon) : Recon :=
  match es with
  | [] => r
  | (index, recvStreamId) :: es' =>
      if StreamIdsInSameGroup vsi streamId recvStreamId then
        {| objs := setDirection i recvonly (objs r);
           subs := arraySet (subs r) n recvStreamId;
           bindings := <[recvStreamId := i]> (delete streamId (bindings r));
           videosRemaining := splice1 index (videosRemaining r) |}
      else
        scanRemaining vsi i n streamId es'
          (if decide (subs r !! n = Some 0%Z)
           then setObjs (setDirection i inactive (objs r)) r
           else r)
  end.

(** [a.shift()]: the first element, if any, and the rest. *)
Definition shift (a : list StreamId) : option StreamId * list StreamId :=
  match a with
  | [] => (None, [])
  | x :: a' => (Some x, a')
  end.

(** One iteration of the loop over the video transceivers (lines 229-272).
    The reference [i] comes from the connection's own list, so the lookup
    succeeds; [shift] is guarded by the length test, so it yields a
    stream id. *)
Definition stepTransceiver (vsi : VideoStreamIndex) (i : TransceiverRef)
    (n : nat) (r0 : Recon) : Recon :=
  let r := setSubs (arraySet (subs r0) n 0%Z) r0 in
  match objs r !! i with
  | None => r
  | Some transceiver =>
      if decide (direction transceiver ≠ inactive) then
        match streamIdForTrack vsi (trackId transceiver) with
        | Some streamId =>
            scanRemaining vsi i n streamId (entries (videosRemaining r)) r
        | None => r
        end
      else if bool_decide (direction transceiver = inactive)
              && bool_decide (0 < length (videosRemaining r)) then
        match shift (videosRemaining r) with
        | (Some streamId, rest) =>
            {| objs := setDirection i recvonly (objs r);
               subs := arraySet (subs r) n streamId;
               bindings := <[streamId := i]> (bindings r);
               videosRemaining := rest |}
        | (None, _) => r
        end
      else if bool_decide (length (videosRemaining r) = 0) then
        {| objs := setDirection i inactive (objs r);
           subs := subs r;
           bindings := filter (λ kv, kv.2 ≠ i) (bindings r);
           videosRemaining := videosRemaining r |}
      else r
  end.

(** The loop itself; [n] counts the subscription position. *)
Fixpoint loopTransceivers (vsi : VideoStreamIndex) (refs : list TransceiverRef)
    (n : nat) (r : Recon) : Recon :=
  match refs with
  | [] => r
  | i :: refs' => loopTransceivers vsi refs' (S n) (stepTransceiver vsi i n r)
  end.

(** The last loop (lines 275-286): a new [recvonly] transceiver for every
    stream id still in [videosRemaining]. *)
Fixpoint createTransceivers (todo : list StreamId) (r : Recon) : Recon :=
  match todo with
  | [] => r
  | index :: todo' =>
      let '(o, transceiver) := addTransceiver video recvonly (objs r) in
      createTransceivers todo'
        {| objs := o;
           subs := subs r ++ [index];
           bindings := <[index := transceiver]> (bindings r);
           videosRemaining := videosRemaining r |}
  end.

(** The references kept by the [filter] of lines 222-224. *)
Definition videoRefs (camera : option TransceiverRef)
    (ts : list RTCRtpTransceiver) : list TransceiverRef :=
  (filter (λ it, camera ≠ Some it.1 ∧ transceiverIsVideo it.2 = true)
     (imap (λ i t, (i, t)) ts)).*1.

Definition updateTransceivers (camera : option TransceiverRef)
    (vsi : VideoStreamIndex) (videosToReceive : VideoStreamIdSet)
    (r : Recon) : Recon :=
  let r0 := {| objs := objs r; subs := subs r; bindings := bindings r;
               videosRemaining := array videosToReceive |} in
  let r1 := loopTransceivers vsi (videoRefs camera (objs r)) 1 r0 in
  createTransceivers (videosRemaining r1) r1.

(** The world after [updateTransceivers] has run on the working state
    [r]: the transceiver objects, [this.videoSubscriptions] and
    [this.streamIdToTransceiver] are the ones it left. *)
Definition commit (r : Recon) (w : World) : World :=
  {| ctl := {| _localCameraTransceiver := _localCameraTransceiver (ctl w);
               _localAudioTransceiver := _localAudioTransceiver (ctl w);
               videoSubscriptions := subs r;
               defaultMediaStream := defaultMediaStream (ctl w);
               peer := peer (ctl w);
               streamIdToTransceiver := bindings r |};
     connection :=
       {| transceivers := objs r;
          getTransceiversDefined := getTransceiversDefined (connection w) |};
     requiresUnifiedPlan := requiresUnifiedPlan w |}.

(** [updateVideoTransceivers]: the new world and the returned array. *)
Definition updateVideoTransceivers (vsi : VideoStreamIndex)
    (videosToReceive : VideoStreamIdSet) (w : World)
    : World * list StreamId :=
  if negb (useTransceivers w) then (w, array videosToReceive)
  else
    let r := updateTransceivers (_localCameraTransceiver (ctl w)) vsi
               (clone videosToReceive)
               {| objs := transceivers (connection w);
                  subs := [0%Z];
                  bindings := streamIdToTransceiver (ctl w);
                  videosRemaining := [] |} in
    (commit r w, subs r).

(** ** Encoding parameters *)

(** JavaScript truthiness of a field value. *)
Definition truthy (v : JsValue) : bool :=
  match v with
  | JsUndefined => false
  | JsBool b => b
  | JsNumber x => negb ((x =? 0)%float || is_nan x)
  | JsString s => negb (bool_decide (s = ""))
  end.

(** [a === b]: on numbers the comparison of doubles, for which [NaN] is
    not equal to itself and [0] is equal to [-0]. *)
Definition strictEquals (a b : JsValue) : bool :=
  match a, b with
  | JsUndefined, JsUndefined => true
  | JsBool x, JsBool y => bool_decide (x = y)
  | JsNumber x, JsNumber y => (x =? y)%float
  | JsString x, JsString y => bool_decide (x = y)
  | _, _ => false
  end.

(** [a || b]. *)
Definition jsOr (a b : JsValue) : JsValue := if truthy a then a else b.

(** [o.key]: a property that is not there reads as [undefined]. *)
Definition getProp (o : gmap string JsValue) (key : string) : JsValue :=
  default JsUndefined (o !! key).

(** The test of line 39 that makes the loop [continue].  Where [!==] and
    the inequality of values part ([NaN] against [NaN], [0] against [-0])
    both rids are falsy, so the test is false either way (lemma
    [ridDiffers_strict]). *)
Definition ridDiffers (existing changed : gmap string JsValue) : bool :=
  truthy (jsOr (getProp existing "rid") (getProp changed "rid"))
  && bool_decide (getProp existing "rid" ≠ getProp changed "rid").

(** The [for (key in changed)] loop of lines 43-54 on one [existing]
    layer: every own property of [changed] but [rid] and
    [codecPayloadType] is assigned. *)
Definition copyFields (existing changed : gmap string JsValue)
    : gmap string JsValue :=
  map_fold
    (λ key v acc,
       if bool_decide (key = "rid") || bool_decide (key = "codecPayloadType")
       then acc
       else <[key := v]> acc)
    existing changed.

(** The loop over [newEncodingParams] for one [existing] layer. *)
Definition patchLayer (newEncodingParams : list (gmap string JsValue))
    (existing : gmap string JsValue) : gmap string JsValue :=
  fold_left
    (λ e changed, if ridDiffers e changed then e else copyFields e changed)
    newEncodingParams existing.

(** Lines 33-57: the parameters handed to [sender.setParameters]. *)
Definition mergeParameters (oldParam : RTCRtpSendParameters)
    (newEncodingParams : list (gmap string JsValue)) : RTCRtpSendParameters :=
  match encodings oldParam with
  | None => {| encodings := Some newEncodingParams |}
  | Some old =>
      if bool_decide (length old = 0)
      then {| encodings := Some newEncodingParams |}
      else {| encodings := Some (patchLayer newEncodingParams <$> old) |}
  end.

Definition setTransceivers (ts : list RTCRtpTransceiver) (w : World) : World :=
  {| ctl := ctl w;
     connection := {| transceivers := ts;
                      getTransceiversDefined :=
                        getTransceiversDefined (connection w) |};
     requiresUnifiedPlan := requiresUnifiedPlan w |}.

(** [setEncodingParameters]; the argument is the [Map] as its entries in
    insertion order, [None] when the caller passes no map. *)
Definition setEncodingParameters
    (encodingParamMap : option (list (string * gmap string JsValue)))
    (w : World) : World :=
  match _localCameraTransceiver (ctl w) with
  | None => w
  | Some c =>
      match transceivers (connection w) !! c with
      | None => w
      | Some camera =>
          if decide (direction camera ≠ sendrecv) then w
          else
            match encodingParamMap with
            | None => w
            | Some m =>
                if bool_decide (length m = 0) then w
                else
                  let newEncodingParams := m.*2 in
                  let oldParam := senderParameters camera in
                  setTransceivers
                    (alter
                       (withSenderParameters
                          (mergeParameters oldParam newEncodingParams))
                       c (transceivers (connection w)))
                    w
            end
      end
  end.

(** The rids of the two layers are the same, or both layers have none. *)
Definition ridMatches (existing changed : gmap string JsValue) : Prop :=
  getProp existing "rid" = getProp changed "rid".

(** What the patch [newEncodingParams] has made of the layers [old]: the
    layers are the same in number, [rid] and [codecPayloadType] are as
    before, any other field provided by a changed layer with a matching
    rid has been copied (the last such layer wins, in map order), and a
    field that no applied layer provides is as before. *)
Definition layersPatched (newEncodingParams old new : list (gmap string JsValue))
    : Prop :=
  length new = length old
  ∧ ∀ k existing,
      old !! k = Some existing →
      ∃ merged,
        new !! k = Some merged
        ∧ merged !! "rid" = existing !! "rid"
        ∧ merged !! "codecPayloadType" = existing !! "codecPayloadType"
        ∧ (∀ q changed key v,
             newEncodingParams !! q = Some changed →
             ridMatches existing changed →
             key ≠ "rid" → key ≠ "codecPayloadType" →
             changed !! key = Some v →
             (∀ q' later, q < q' → newEncodingParams !! q' = Some later →
                          ridDiffers existing later = false →
                          later !! key = None) →
             merged !! key = Some v)
        ∧ (∀ key,
             (∀ changed, changed ∈ newEncodingParams →
                         ridDiffers existing changed = false →
                         changed !! key = None) →
             merged !! key = existing !! key).

(** ** Decision table of one reconciliation step

    What [stepTransceiver] does to a slot is a function of the slot's
    direction, of what its track resolves to and of [videosRemaining].
    The proofs go through this table (lemma [stepTransceiver_action]). *)

(** The first element of [l] that satisfies [p], and [l] without it. *)
Fixpoint pick (p : StreamId → bool) (l : list StreamId)
    : option (StreamId * list StreamId) :=
  match l with
  | [] => None
  | x :: l' =>
      if p x then Some (x, l')
      else match pick p l' with
           | Some (y, l'') => Some (y, x :: l'')
           | None => None
           end
  end.

Inductive Action :=
  | Rebind (old new : StreamId) (rest : list StreamId)
  | Deactivate
  | Skip
  | Fill (new : StreamId) (rest : list StreamId)
  | Release.

Definition action (vsi : VideoStreamIndex) (t : RTCRtpTransceiver)
    (remaining : list StreamId) : Action :=
  if decide (direction t ≠ inactive) then
    match streamIdForTrack vsi (trackId t) with
    | Some streamId =>
        match pick (StreamIdsInSameGroup vsi streamId) remaining with
        | Some (y, rest) => Rebind streamId y rest
        | None => match remaining with [] => Skip | _ => Deactivate end
        end
    | None => Skip
    end
  else
    match remaining with
    | y :: rest => Fill y rest
    | [] => Release
    end.

Definition applyAction (i : TransceiverRef) (a : Action) (r : Recon) : Recon :=
  match a with
  | Rebind old new rest =>
      {| objs := setDirection i recvonly (objs r);
         subs := subs r ++ [new];
         bindings := <[new := i]> (delete old (bindings r));
         videosRemaining := rest |}
  | Deactivate =>
      {| objs := setDirection i inactive (objs r);
         subs := subs r ++ [0%Z];
         bindings := bindings r;
         videosRemaining := videosRemaining r |}
  | Skip =>
      {| objs := objs r;
         subs := subs r ++ [0%Z];
         bindings := bindings r;
         videosRemaining := videosRemaining r |}
  | Fill new rest =>
      {| objs := setDirection i recvonly (objs r);
         subs := subs r ++ [new];
         bindings := <[new := i]> (bindings r);
         videosRemaining := rest |}
  | Release =>
      {| objs := setDirection i inactive (objs r);
         subs := subs r ++ [0%Z];
         bindings := filter (λ kv, kv.2 ≠ i) (bindings r);
         videosRemaining := [] |}
  end.

(** The value an action records at the slot's subscription position. *)
Definition recorded (a : Action) : StreamId :=
  match a with
  | Rebind _ new _ | Fill new _ => new
  | Deactivate | Skip | Release => 0%Z
  end.

(** The direction an action writes, if it writes one. *)
Definition target (a : Action) : option RTCRtpTransceiverDirection :=
  match a with
  | Rebind _ _ _ | Fill _ _ => Some recvonly
  | Deactivate | Release => Some inactive
  | Skip => None
  end.

(** Two states of one transceiver object: reconciliation writes nothing
    but the direction. *)
Definition sameSlot (t t' : RTCRtpTransceiver) : Prop :=
  mid t = mid t' ∧ receiverTrack t = receiverTrack t'
  ∧ senderTrack t = senderTrack t'.

(** ** Scenarios *)

(** A video transceiver as the browser hands it out after negotiation. *)
Definition videoSlot (m : string) (d : RTCRtpTransceiverDirection)
    : RTCRtpTransceiver :=
  {| mid := Some m; direction := d; receiverTrack := Some video;
     senderTrack := None; senderParameters := {| encodings := None |} |}.

(** A connected controller whose camera transceiver is the first of [ts]. *)
Definition connectedWorld (ts : list RTCRtpTransceiver) (b : gmap Z nat)
    : World :=
  {| ctl := {| _localCameraTransceiver := Some 0;
               _localAudioTransceiver := None;
               videoSubscriptions := [];
               defaultMediaStream := Some tt;
               peer := Some tt;
               streamIdToTransceiver := b |};
     connection := {| transceivers := ts; getTransceiversDefined := true |};
     requiresUnifiedPlan := true |}.

Fixpoint assoc (tracks : list (string * Z)) (track : string) : option Z :=
  match tracks with
  | [] => None
  | (k, v) :: tracks' => if bool_decide (k = track) then Some v
                         else assoc tracks' track
  end.

(** A stream index given by the tracks it knows and its grouping. *)
Definition indexOf (tracks : list (string * Z)) (sameGroup : Z → Z → bool)
    : VideoStreamIndex :=
  {| streamIdForTrack := assoc tracks; StreamIdsInSameGroup := sameGroup |}.

(** Every stream id is alone in its group. *)
Definition ownGroup (a b : Z) : bool := bool_decide (a = b).

(** A camera that is sending two simulcast layers. *)
Definition sendingCamera : RTCRtpTransceiver :=
  {| mid := Some "0"; direction := sendrecv; receiverTrack := Some video;
     senderTrack := Some video;
     senderParameters :=
       {| encodings :=
            Some [ {[ "rid" := JsString "low"; "maxBitrate" := JsNumber 100 ]};
                   {[ "rid" := JsString "hi"; "maxBitrate" := JsNumber 500 ]} ]
       |} |}.

Definition sendingWorld : World := connectedWorld [sendingCamera] ∅.

(** A patch for the layer [low]. *)
Definition lowPatch : list (string * gmap string JsValue) :=
  [ ("low", {[ "rid" := JsString "low"; "maxBitrate" := JsNumber 200;
               "codecPayloadType" := JsNumber 96 ]}) ].

(** Scenario B of the specification: the camera and one [recvonly] slot
    bound to stream 5. *)
Definition scenarioB : World :=
  connectedWorld [videoSlot "0" inactive; videoSlot "1" recvonly]
                 {[ 5%Z := 1 ]}.

Definition indexB : VideoStreamIndex := indexOf [("v_1", 5%Z)] ownGroup.

(** Scenario A: the camera and two inactive slots. *)
Definition scenarioA : World :=
  connectedWorld
    [videoSlot "0" inactive; videoSlot "1" inactive; videoSlot "2" inactive]
    ∅.

(** A slot bound to stream 5 followed by an inactive slot, and an index
    that resolves the tags of both. *)
Definition scenarioE : World :=
  connectedWorld
    [videoSlot "0" inactive; videoSlot "1" recvonly; videoSlot "2" inactive]
    {[ 5%Z := 1 ]}.

Definition indexE : VideoStreamIndex :=
  indexOf [("v_1", 5%Z); ("v_2", 9%Z)] ownGroup.

(** Scenario D: the camera alone. *)
Definition scenarioD : World := connectedWorld [videoSlot "0" inactive] ∅.

(** Scenario C with one more slot, active and unknown to the index, ahead
    of the bound one. *)
Definition scenarioC : World :=
  connectedWorld
    [videoSlot "0" inactive; videoSlot "1" recvonly; videoSlot "2" recvonly]
    {[ 5%Z := 2 ]}.

(** The state Scenario C starts from, with one more slot, inactive, ahead
    of the bound one. *)
Definition scenarioC' : World :=
  connectedWorld
    [videoSlot "0" inactive; videoSlot "1" inactive; videoSlot "2" recvonly]
    {[ 5%Z := 2 ]}.

Definition indexC' : VideoStreamIndex :=
  indexOf [("v_2", 5%Z)] (λ _ _, true).

(** ** Statements of the specification that the code does not meet

    Each is written as the specification words it.  The properties below
    show a scenario on which it fails, and what holds instead. *)

(** "Every active slot whose tag the index cannot resolve is deactivated,
    and 0 is recorded at its position." *)
Definition unresolvedSlotsDeactivated (vsi : VideoStreamIndex)
    (videosToReceive : VideoStreamIdSet) (w : World) : Prop :=
  let ts := transceivers (connection w) in
  let refs := videoRefs (_localCameraTransceiver (ctl w)) ts in
  let out := updateVideoTransceivers vsi videosToReceive w in
  ∀ p i t,
    useTransceivers w = true →
    refs !! p = Some i → ts !! i = Some t →
    direction t ≠ inactive → streamIdForTrack vsi (trackId t) = None →
    direction <$> transceivers (connection out.1) !! i = Some inactive
    ∧ out.2 !! S p = Some 0%Z.

(** "After [reset()] the subscription array is back in its initial state,
    no binding is left, and no channel has been destroyed." *)
Definition resetClearsBindings (w : World) : Prop :=
  videoSubscriptions (ctl (reset w)) = videoSubscriptions initialController
  ∧ streamIdToTransceiver (ctl (reset w)) = ∅
  ∧ connection (reset w) = connection w.

(** "A slot bound to [x], whose tag resolves to [x], is rebound in place
    when the desired set is the single stream [y] of the group of [x]." *)
Definition sameGroupRebinds (vsi : VideoStreamIndex) (w : World)
    (i : TransceiverRef) (x y : StreamId) : Prop :=
  let ts := transceivers (connection w) in
  let refs := videoRefs (_localCameraTransceiver (ctl w)) ts in
  let out := updateVideoTransceivers vsi {| ids := [y] |} w in
  ∀ p t,
    useTransceivers w = true →
    refs !! p = Some i → ts !! i = Some t →
    direction t = recvonly →
    streamIdForTrack vsi (trackId t) = Some x →
    streamIdToTransceiver (ctl w) !! x = Some i →
    StreamIdsInSameGroup vsi x y = true →
    direction <$> transceivers (connection out.1) !! i = Some recvonly
    ∧ out.2 !! S p = Some y
    ∧ streamIdToTransceiver (ctl out.1) !! y = Some i
    ∧ (x ≠ y → streamIdToTransceiver (ctl out.1) !! x = None)
    ∧ length (transceivers (connection out.1)) = length ts.

(** The second of two calls with the same index and the same desired set
    returns the same array, changes no direction and creates no
    transceiver. *)
Definition secondCallIdle (vsi : VideoStreamIndex)
    (videosToReceive : VideoStreamIdSet) (w : World) : Prop :=
  let out1 := updateVideoTransceivers vsi videosToReceive w in
  let out2 := updateVideoTransceivers vsi videosToReceive out1.1 in
  out2.2 = out1.2
  ∧ transceivers (connection out2.1) = transceivers (connection out1.1).

(** "With an index in which every stream id is in its own group, calling
    twice in a row with the same desired set is idempotent." *)
Definition idempotent (vsi : VideoStreamIndex)
    (videosToReceive : VideoStreamIdSet) (w : World) : Prop :=
  useTransceivers w = true →
  (∀ s, StreamIdsInSameGroup vsi s s = true) →
  secondCallIdle vsi videosToReceive w.

(** What rebinding in place needs of the slots before position [p]: none
    of them is inactive, and none resolves to a stream of the group of
    [y]. *)
Definition earlierSlotsPass (vsi : VideoStreamIndex)
    (ts : list RTCRtpTransceiver) (refs : list TransceiverRef)
    (p : nat) (y : StreamId) : Prop :=
  ∀ q j u,
    q < p → refs !! q = Some j → ts !! j = Some u →
    direction u ≠ inactive
    ∧ ∀ x', streamIdForTrack vsi (trackId u) = Some x' →
            StreamIdsInSameGroup vsi x' y = false.

(** What idempotence needs of the first call: it switches no transceiver
    off, and the index resolves the tag of every video slot the call
    switched on, and of every transceiver it created, into the group of
    the stream id recorded at the position of that slot. *)
Definition firstCallSettled (vsi : VideoStreamIndex)
    (videosToReceive : VideoStreamIdSet) (w : World) : Prop :=
  let camera := _localCameraTransceiver (ctl w) in
  let ts := transceivers (connection w) in
  let out := updateVideoTransceivers vsi videosToReceive w in
  let ts1 := transceivers (connection out.1) in
  (∀ i t t', ts !! i = Some t → ts1 !! i = Some t' →
             direction t ≠ inactive → direction t' ≠ inactive)
  ∧ (∀ p i t', videoRefs camera ts1 !! p = Some i → ts1 !! i = Some t' →
               direction t' ≠ inactive →
               (∀ t, ts !! i = Some t → direction t = inactive) →
               ∃ x s, streamIdForTrack vsi (trackId t') = Some x
                      ∧ out.2 !! S p = Some s
                      ∧ StreamIdsInSameGroup vsi x s = true).

(** ** The other operations of the controller *)

(** [RTCRtpSender], the part of it the controller uses: the kind of its
    track ([None] for no track) and its send parameters.  In a transceiver
    record it is the pair of [senderTrack] and [senderParameters]. *)
Record RTCRtpSender := {
  track : option TrackKind;
  getParameters : RTCRtpSendParameters
}.

Definition sender (t : RTCRtpTransceiver) : RTCRtpSender :=
  {| track := senderTrack t; getParameters := senderParameters t |}.

Definition withSender (s : RTCRtpSender) (t : RTCRtpTransceiver)
    : RTCRtpTransceiver :=
  {| mid := mid t; direction := direction t; receiverTrack := receiverTrack t;
     senderTrack := track s; senderParameters := getParameters s |}.

(** [sender.setParameters(p)] and [sender.replaceTrack(track)], as the
    browser stores them. *)
Definition setParameters (p : RTCRtpSendParameters) (s : RTCRtpSender)
    : RTCRtpSender :=
  {| track := track s; getParameters := p |}.

Definition replaceTrack (withTrack : option TrackKind) (s : RTCRtpSender)
    : RTCRtpSender :=
  {| track := withTrack; getParameters := getParameters s |}.

(** [setVideoSendingBitrateKbpsForSender] (lines 62-78): the sender after
    the call, [None] for no sender.  A missing [encodings] becomes one
    empty layer; an empty array is kept as it is. *)
Definition setVideoSendingBitrateKbpsForSender (s : option RTCRtpSender)
    (bitrateKbps : float) : option RTCRtpSender :=
  match s with
  | None => None
  | Some snd =>
      if (bitrateKbps <=? 0)%float then Some snd
      else
        let param := getParameters snd in
        let encs := match encodings param with
                    | None => [∅]
                    | Some e => e
                    end in
        Some (setParameters
                {| encodings :=
                     Some ((λ encodeParam : gmap string JsValue,
                              <["maxBitrate" := JsNumber (bitrateKbps * 1000)]>
                                encodeParam) <$> encs) |}
                snd)
  end.

(** [replaceAudioTrackForSender] (lines 80-90): the sender after the call
    and the returned boolean. *)
Definition replaceAudioTrackForSender (s : option RTCRtpSender)
    (withTrack : option TrackKind) : option RTCRtpSender * bool :=
  match s with
  | None => (None, false)
  | Some snd => (Some (replaceTrack withTrack snd), true)
  end.

(** [localAudioTransceiver()] and [localVideoTransceiver()]: the object
    behind the reference. *)
Definition localAudioTransceiver (w : World) : option RTCRtpTransceiver :=
  _localAudioTransceiver (ctl w) ≫= λ a, transceivers (connection w) !! a.

Definition localVideoTransceiver (w : World) : option RTCRtpTransceiver :=
  _localCameraTransceiver (ctl w) ≫= λ c, transceivers (connection w) !! c.

(** [setVideoSendingBitrateKbps] (lines 100-110). *)
Definition setVideoSendingBitrateKbps (bitrateKbps : float) (w : World)
    : World :=
  match _localCameraTransceiver (ctl w) with
  | None => w
  | Some c =>
      match transceivers (connection w) !! c with
      | None => w
      | Some camera =>
          if decide (direction camera ≠ sendrecv) then w
          else
            match setVideoSendingBitrateKbpsForSender (Some (sender camera))
                    bitrateKbps with
            | Some snd =>
                setTransceivers
                  (alter (withSender snd) c (transceivers (connection w))) w
            | None => w
            end
      end
  end.

(** [setPeer(peer)] for the connection of the world. *)
Definition setPeer (w : World) : World :=
  {| ctl := {| _localCameraTransceiver := _localCameraTransceiver (ctl w);
               _localAudioTransceiver := _localAudioTransceiver (ctl w);
               videoSubscriptions := videoSubscriptions (ctl w);
               defaultMediaStream := defaultMediaStream (ctl w);
               peer := Some tt;
               streamIdToTransceiver := streamIdToTransceiver (ctl w) |};
     connection := connection w;
     requiresUnifiedPlan := requiresUnifiedPlan w |}.

(** [hasVideoInput()] (lines 132-137). *)
Definition hasVideoInput (w : World) : bool :=
  match localVideoTransceiver w with
  | None => false
  | Some camera => bool_decide (direction camera = sendrecv)
  end.

(** [setupLocalTransceivers()] (lines 149-171); [mediaStreamDefined] is
    [typeof MediaStream !== 'undefined']. *)
Definition setupLocalTransceivers (mediaStreamDefined : bool) (w : World)
    : World :=
  if negb (useTransceivers w) then w
  else
    let stream :=
      match defaultMediaStream (ctl w) with
      | None => if mediaStreamDefined then Some tt else None
      | Some ms => Some ms
      end in
    let '(ts1, audioRef) :=
      match _localAudioTransceiver (ctl w) with
      | None => addTransceiver audio inactive (transceivers (connection w))
      | Some a => (transceivers (connection w), a)
      end in
    let '(ts2, cameraRef) :=
      match _localCameraTransceiver (ctl w) with
      | None => addTransceiver video inactive ts1
      | Some c => (ts1, c)
      end in
    {| ctl := {| _localCameraTransceiver := Some cameraRef;
                 _localAudioTransceiver := Some audioRef;
                 videoSubscriptions := videoSubscriptions (ctl w);
                 defaultMediaStream := stream;
                 peer := peer (ctl w);
                 streamIdToTransceiver := streamIdToTransceiver (ctl w) |};
       connection :=
         {| transceivers := ts2;
            getTransceiversDefined := getTransceiversDefined (connection w) |};
       requiresUnifiedPlan := requiresUnifiedPlan w |}.

(** [replaceAudioTrack] (lines 173-180): the world after the call and the
    returned boolean. *)
Definition replaceAudioTrack (withTrack : option TrackKind) (w : World)
    : World * bool :=
  match _localAudioTransceiver (ctl w) with
  | None => (w, false)
  | Some a =>
      match transceivers (connection w) !! a with
      | None => (w, false)
      | Some t =>
          if decide (direction t ≠ sendrecv) then (w, false)
          else
            (setTransceivers
               (alter (λ t, withSender (replaceTrack withTrack (sender t)) t)
                  a (transceivers (connection w)))
               w,
             true)
      end
  end.

(** [setTransceiverInput] (lines 326-341): the direction follows the
    track, and the track goes to the sender. *)
Definition setTransceiverInput (transceiver : option TransceiverRef)
    (withTrack : option TrackKind) (w : World) : World :=
  match transceiver with
  | None => w
  | Some i =>
      setTransceivers
        (alter
           (λ t, let t' := withDirection
                             match withTrack with
                             | Some _ => sendrecv
                             | None => inactive
                             end t in
                 withSender (replaceTrack withTrack (sender t')) t')
           i (transceivers (connection w)))
        w
  end.

Definition setAudioInput (withTrack : option TrackKind) (w : World) : World :=
  setTransceiverInput (_localAudioTransceiver (ctl w)) withTrack w.

Definition setVideoInput (withTrack : option TrackKind) (w : World) : World :=
  setTransceiverInput (_localCameraTransceiver (ctl w)) withTrack w.

(** [getMidForStreamId] (lines 289-291): [None] is [undefined], [Some None]
    a transceiver whose [mid] is still [null]. *)
Definition getMidForStreamId (w : World) (streamId : StreamId)
    : option (option string) :=
  match streamIdToTransceiver (ctl w) !! streamId with
  | None => None
  | Some i => mid <$> transceivers (connection w) !! i
  end.

(** The loop of [setStreamIdForMid] (lines 294-300) over the entries of
    the map: the first entry whose transceiver has the [mid] is rebound,
    and the loop returns. *)
Fixpoint rebindFirst (ts : list RTCRtpTransceiver) (m : string)
    (newStreamId : StreamId) (es : list (Z * nat)) (b : gmap Z nat)
    : gmap Z nat :=
  match es with
  | [] => b
  | (streamId, transceiver) :: es' =>
      if bool_decide (mid <$> ts !! transceiver = Some (Some m))
      then <[newStreamId := transceiver]> (delete streamId b)
      else rebindFirst ts m newStreamId es' b
  end.

(** [setStreamIdForMid] (lines 293-301).  A JavaScript [Map] iterates in
    insertion order, which the finite map of the model does not record:
    [entriesInOrder] is the content of [streamIdToTransceiver] in that
    order. *)
Definition setStreamIdForMid (entriesInOrder : list (Z * nat)) (m : string)
    (newStreamId : StreamId) (w : World) : World :=
  {| ctl := {| _localCameraTransceiver := _localCameraTransceiver (ctl w);
               _localAudioTransceiver := _localAudioTransceiver (ctl w);
               videoSubscriptions := videoSubscriptions (ctl w);
               defaultMediaStream := defaultMediaStream (ctl w);
               peer := peer (ctl w);
               streamIdToTransceiver :=
                 rebindFirst (transceivers (connection w)) m newStreamId
                   entriesInOrder (streamIdToTransceiver (ctl w)) |};
     connection := connection w;
     requiresUnifiedPlan := requiresUnifiedPlan w |}.

(** The references a controller holds point into its connection. *)
Definition validRefs (w : World) : Prop :=
  (∀ c, _localCameraTransceiver (ctl w) = Some c →
        c < length (transceivers (connection w)))
  ∧ (∀ a, _localAudioTransceiver (ctl w) = Some a →
          a < length (transceivers (connection w)))
  ∧ (∀ s i, streamIdToTransceiver (ctl w) !! s = Some i →
            i < length (transceivers (connection w))).

(** A controller that has just been given a new connection. *)
Definition newWorld : World :=
  {| ctl := {| _localCameraTransceiver := None;
               _localAudioTransceiver := None;
               videoSubscriptions := [];
               defaultMediaStream := None;
               peer := Some tt;
               streamIdToTransceiver := ∅ |};
     connection := {| transceivers := []; getTransceiversDefined := true |};
     requiresUnifiedPlan := true |}.

(** The same after [setupLocalTransceivers], and with the camera on. *)
Definition localWorld : World := setupLocalTransceivers true newWorld.

Definition cameraOnWorld : World := setVideoInput (Some video) localWorld.

(** * Properties *)

(** ** Arrays *)

Lemma arraySet_end (a : list Z) (n : nat) (v : Z) :
  length a = n → arraySet a n v = a ++ [v].
Proof.
  intros <-. unfold arraySet.
  destruct (decide (length a < length a)) as [Hlt|_]; [lia|].
  by rewrite Nat.sub_diag.
Qed.

Lemma arraySet_last (a : list Z) (x v : Z) :
  arraySet (a ++ [x]) (length a) v = a ++ [v].
Proof.
  unfold arraySet. rewrite length_app. simpl.
  destruct (decide (length a < length a + 1)) as [_|Hge]; [|lia].
  replace (length a) with (length a + 0) at 1 by lia.
  by rewrite insert_app_r.
Qed.

Lemma splice1_middle (pre suf : list Z) (x : Z) :
  splice1 (length pre + 0) (pre ++ x :: suf) = pre ++ suf.
Proof.
  unfold splice1. rewrite Nat.add_0_r.
  rewrite take_app_length.
  replace (S (length pre)) with (length (pre ++ [x]))
    by (rewrite length_app; simpl; lia).
  by rewrite (cons_middle x pre suf), app_assoc, drop_app_length.
Qed.

Lemma setDirection_twice i d d' (o : list RTCRtpTransceiver) :
  setDirection i d (setDirection i d' o) = setDirection i d o.
Proof.
  unfold setDirection. rewrite list_alter_alter_eq.
  by apply list_alter_ext.
Qed.

Lemma setDirection_length i d (o : list RTCRtpTransceiver) :
  length (setDirection i d o) = length o.
Proof. apply length_alter. Qed.

Lemma setDirection_lookup_ne i j d (o : list RTCRtpTransceiver) :
  i ≠ j → setDirection i d o !! j = o !! j.
Proof. intros. by apply list_lookup_alter_ne. Qed.

Lemma setDirection_lookup i d (o : list RTCRtpTransceiver) :
  setDirection i d o !! i = withDirection d <$> o !! i.
Proof. apply list_lookup_alter_eq. Qed.

(** Writing the direction an object already has changes nothing. *)
Lemma setDirection_same i d (o : list RTCRtpTransceiver) t :
  o !! i = Some t → direction t = d → setDirection i d o = o.
Proof.
  intros Hi Hd. unfold setDirection. apply list_eq. intros j.
  destruct (decide (i = j)) as [<-|Hne].
  - rewrite list_lookup_alter_eq, Hi. simpl. f_equal.
    destruct t; simpl in *; by subst.
  - by rewrite list_lookup_alter_ne.
Qed.

(** ** The step follows its decision table *)

Lemma pick_spec (p : Z → bool) (l : list Z) y rest :
  pick p l = Some (y, rest) →
  ∃ pre suf, l = pre ++ y :: suf ∧ rest = pre ++ suf ∧ p y = true
             ∧ Forall (λ x, p x = false) pre.
Proof.
  revert y rest. induction l as [|x l IH]; intros y rest; simpl; [done|].
  destruct (p x) eqn:Hx.
  - intros [= <- <-]. exists [], l. by repeat split.
  - destruct (pick p l) as [[y' l'']|] eqn:Hp; [|done].
    intros [= <- <-]. destruct (IH _ _ eq_refl) as (pre & suf & -> & -> & ? & ?).
    exists (x :: pre), suf. repeat split; try done. by constructor.
Qed.

Lemma pick_Permutation (p : Z → bool) (l : list Z) y rest :
  pick p l = Some (y, rest) → l ≡ₚ y :: rest.
Proof.
  intros (pre & suf & -> & -> & _)%pick_spec.
  by rewrite Permutation_middle.
Qed.

Lemma scanRemaining_spec vsi i n sid (s pre suf : list Z) o b :
  length s = n →
  scanRemaining vsi i n sid (imap (λ k x, (length pre + k, x)) suf)
    {| objs := o; subs := s ++ [0%Z]; bindings := b;
       videosRemaining := pre ++ suf |}
  = match pick (StreamIdsInSameGroup vsi sid) suf with
    | Some (y, rest) =>
        {| objs := setDirection i recvonly o; subs := s ++ [y];
           bindings := <[y := i]> (delete sid b);
           videosRemaining := pre ++ rest |}
    | None =>
        {| objs := match suf with [] => o | _ => setDirection i inactive o end;
           subs := s ++ [0%Z]; bindings := b;
           videosRemaining := pre ++ suf |}
    end.
Proof.
  intros Hn. revert pre o.
  induction suf as [|x suf IH]; intros pre o; [done|].
  rewrite imap_cons. cbn [scanRemaining pick].
  destruct (StreamIdsInSameGroup vsi sid x) eqn:Hx.
  - cbn [objs subs bindings videosRemaining]. subst n.
    by rewrite arraySet_last, splice1_middle.
  - cbn [subs]. rewrite decide_True; last first.
    { subst n. by rewrite lookup_app_r, Nat.sub_diag. }
    unfold setObjs. cbn [objs subs bindings videosRemaining].
    rewrite (cons_middle x pre suf), app_assoc.
    erewrite imap_ext; [rewrite (IH (pre ++ [x]))|]; last first.
    { intros k y _. simpl. rewrite length_app. simpl. f_equal. lia. }
    destruct (pick (StreamIdsInSameGroup vsi sid) suf) as [[y rest]|].
    + rewrite setDirection_twice. by rewrite <- app_assoc.
    + f_equal. destruct suf; [done|]. by rewrite setDirection_twice.
Qed.

Lemma stepTransceiver_action vsi i n r t :
  objs r !! i = Some t → length (subs r) = n →
  stepTransceiver vsi i n r = applyAction i (action vsi t (videosRemaining r)) r.
Proof.
  intros Hi Hn. unfold stepTransceiver, action.
  destruct r as [o s b rem]. cbn [objs subs bindings videosRemaining setSubs] in *.
  rewrite Hi, (arraySet_end _ _ _ Hn).
  destruct (decide (direction t ≠ inactive)) as [Hact|Hin].
  - destruct (streamIdForTrack vsi (trackId t)) as [sid|]; [|done].
    pose proof (scanRemaining_spec vsi i n sid s [] rem o b Hn) as Hscan.
    simpl in Hscan. unfold entries, setSubs.
    cbn [objs subs bindings videosRemaining]. rewrite Hscan.
    destruct (pick (StreamIdsInSameGroup vsi sid) rem) as [[y rest]|]; [done|].
    by destruct rem.
  - apply dec_stable in Hin. rewrite bool_decide_eq_true_2 by done.
    destruct rem as [|y rest]; simpl.
    + subst n. done.
    + subst n. by rewrite arraySet_last.
Qed.

(** ** The loop over the existing transceivers *)

Lemma applyAction_objs_length i a r :
  length (objs (applyAction i a r)) = length (objs r).
Proof. destruct a; simpl; auto using setDirection_length. Qed.

Lemma applyAction_subs i a r :
  subs (applyAction i a r) = subs r ++ [recorded a].
Proof. by destruct a. Qed.

Lemma applyAction_objs_ne i j a r :
  i ≠ j → objs (applyAction i a r) !! j = objs r !! j.
Proof. intros. destruct a; simpl; auto using setDirection_lookup_ne. Qed.

(** Induction along the loop: every reference is valid and met once, and
    each iteration is the application of its action. *)
Lemma loopTransceivers_ind vsi
    (P : list nat → nat → Recon → Recon → Prop) :
  (∀ n r, P [] n r r) →
  (∀ i refs n r t,
     objs r !! i = Some t → length (subs r) = n → i ∉ refs →
     let ra := applyAction i (action vsi t (videosRemaining r)) r in
     NoDup refs → Forall (λ j, j < length (objs ra)) refs →
     length (subs ra) = S n →
     P refs (S n) ra (loopTransceivers vsi refs (S n) ra) →
     P (i :: refs) n r (loopTransceivers vsi refs (S n) ra)) →
  ∀ refs n r,
    NoDup refs → Forall (λ j, j < length (objs r)) refs →
    length (subs r) = n →
    P refs n r (loopTransceivers vsi refs n r).
Proof.
  intros Hnil Hcons refs.
  induction refs as [|i refs IH]; intros n r Hnd Hval Hn; [apply Hnil|].
  apply NoDup_cons in Hnd as [Hi Hnd].
  apply Forall_cons in Hval as [Hlt Hval].
  destruct (lookup_lt_is_Some_2 _ _ Hlt) as [t Ht].
  cbn [loopTransceivers]. rewrite (stepTransceiver_action _ _ _ _ _ Ht Hn).
  assert (Forall (λ j, j < length
            (objs (applyAction i (action vsi t (videosRemaining r)) r))) refs)
    as Hval' by (by rewrite applyAction_objs_length).
  assert (length (subs (applyAction i (action vsi t (videosRemaining r)) r))
          = S n) as Hn'.
  { rewrite applyAction_subs, length_app. simpl. lia. }
  apply Hcons; auto.
Qed.

Lemma loopTransceivers_objs_length vsi refs n r :
  NoDup refs → Forall (λ j, j < length (objs r)) refs → length (subs r) = n →
  length (objs (loopTransceivers vsi refs n r)) = length (objs r).
Proof.
  revert refs n r.
  apply (loopTransceivers_ind vsi (λ _ _ r r', length (objs r') = length (objs r)));
    [done|].
  intros i refs n r t _ _ _ ra _ _ _ ->. apply applyAction_objs_length.
Qed.

(** Iterations touch no other transceiver than their own. *)
Lemma loopTransceivers_frame vsi refs n r j :
  NoDup refs → Forall (λ j, j < length (objs r)) refs → length (subs r) = n →
  j ∉ refs → objs (loopTransceivers vsi refs n r) !! j = objs r !! j.
Proof.
  intros Hnd Hval Hn. revert refs n r Hnd Hval Hn.
  apply (loopTransceivers_ind vsi
           (λ refs _ r r', j ∉ refs → objs r' !! j = objs r !! j)); [done|].
  intros i refs n r t _ _ _ ra _ _ _ IH Hj.
  apply not_elem_of_cons in Hj as [Hne Hj].
  rewrite (IH Hj). by apply applyAction_objs_ne.
Qed.

(** The loop only ever writes [videoSubscriptions] at its end: one entry
    per transceiver, appended in order. *)
Lemma loopTransceivers_subs vsi refs n r :
  NoDup refs → Forall (λ j, j < length (objs r)) refs → length (subs r) = n →
  ∃ rec, subs (loopTransceivers vsi refs n r) = subs r ++ rec
         ∧ length rec = length refs.
Proof.
  revert refs n r.
  apply (loopTransceivers_ind vsi
           (λ refs _ r r', ∃ rec, subs r' = subs r ++ rec
                                  ∧ length rec = length refs)).
  - intros _ r. exists []. by rewrite app_nil_r.
  - intros i refs n r t _ _ _ ra _ _ _ (rec & -> & Hlen).
    exists (recorded (action vsi t (videosRemaining r)) :: rec). split.
    + subst ra. by rewrite applyAction_subs, <- app_assoc.
    + simpl. by rewrite Hlen.
Qed.

Lemma createTransceivers_objs todo r :
  objs (createTransceivers todo r)
  = objs r ++ replicate (length todo) (freshTransceiver video recvonly).
Proof.
  revert r. induction todo as [|x todo IH]; intros r; simpl.
  - by rewrite app_nil_r.
  - rewrite IH. simpl. by rewrite <- app_assoc.
Qed.

Lemma createTransceivers_subs todo r :
  subs (createTransceivers todo r) = subs r ++ todo.
Proof.
  revert r. induction todo as [|x todo IH]; intros r; simpl.
  - by rewrite app_nil_r.
  - rewrite IH. simpl. by rewrite <- app_assoc.
Qed.

(** ** The references of the video slots *)

Lemma videoRefs_elem_of camera (ts : list RTCRtpTransceiver) i :
  i ∈ videoRefs camera ts ↔
  ∃ t, ts !! i = Some t ∧ camera ≠ Some i ∧ transceiverIsVideo t = true.
Proof.
  unfold videoRefs. rewrite list_elem_of_fmap. split.
  - intros ([j t] & -> & [H1 H2]%list_elem_of_filter).
    apply elem_of_lookup_imap in H2 as (k & t' & [= -> ->] & Hk).
    exists t'. simpl in *. by destruct H1.
  - intros (t & Ht & Hc & Hv). exists (i, t). split; [done|].
    apply list_elem_of_filter. split; [done|].
    apply elem_of_lookup_imap. by exists i, t.
Qed.

Lemma videoRefs_valid camera (ts : list RTCRtpTransceiver) :
  Forall (λ j, j < length ts) (videoRefs camera ts).
Proof.
  apply Forall_forall. intros i (t & Ht & _)%videoRefs_elem_of.
  by eapply lookup_lt_Some.
Qed.

Lemma videoRefs_NoDup camera (ts : list RTCRtpTransceiver) :
  NoDup (videoRefs camera ts).
Proof.
  unfold videoRefs.
  eapply sublist_NoDup; [|apply fmap_sublist, sublist_filter].
  rewrite fmap_imap.
  rewrite (imap_ext _ (λ j _, id j) ts) by done.
  rewrite (imap_seq_0 ts id), list_fmap_id.
  apply NoDup_seq.
Qed.

(** ** What one call returns *)

Lemma updateVideoTransceivers_result vsi videosToReceive w :
  let refs := videoRefs (_localCameraTransceiver (ctl w))
                        (transceivers (connection w)) in
  let r1 := loopTransceivers vsi refs 1
              {| objs := transceivers (connection w); subs := [0%Z];
                 bindings := streamIdToTransceiver (ctl w);
                 videosRemaining := array videosToReceive |} in
  let r2 := createTransceivers (videosRemaining r1) r1 in
  useTransceivers w = true →
  (updateVideoTransceivers vsi videosToReceive w).2 = subs r2
  ∧ transceivers (connection (updateVideoTransceivers vsi videosToReceive w).1)
    = objs r2
  ∧ streamIdToTransceiver (ctl (updateVideoTransceivers vsi videosToReceive w).1)
    = bindings r2.
Proof. intros refs r1 r2 Huse. unfold updateVideoTransceivers. by rewrite Huse. Qed.

(** The returned array: the camera position, one entry per existing
    video slot, then the stream ids that got a new transceiver. *)
Lemma updateVideoTransceivers_shape vsi videosToReceive w :
  let refs := videoRefs (_localCameraTransceiver (ctl w))
                        (transceivers (connection w)) in
  let r1 := loopTransceivers vsi refs 1
              {| objs := transceivers (connection w); subs := [0%Z];
                 bindings := streamIdToTransceiver (ctl w);
                 videosRemaining := array videosToReceive |} in
  useTransceivers w = true →
  ∃ rec, (updateVideoTransceivers vsi videosToReceive w).2
         = 0%Z :: rec ++ videosRemaining r1
         ∧ length rec = length refs.
Proof.
  intros refs r1 Huse.
  destruct (loopTransceivers_subs vsi refs 1
              {| objs := transceivers (connection w); subs := [0%Z];
                 bindings := streamIdToTransceiver (ctl w);
                 videosRemaining := array videosToReceive |})
    as (rec & Hrec & Hlen);
    [apply videoRefs_NoDup|apply videoRefs_valid|done|].
  exists rec. split; [|done].
  destruct (updateVideoTransceivers_result vsi videosToReceive w Huse)
    as (-> & _).
  fold refs r1 in Hrec |- *. by rewrite createTransceivers_subs, Hrec.
Qed.

(** C4 (camera sentinel): whenever transceivers are in use the returned
    subscription array is not empty and its element at index 0 is 0,
    whatever the desired set and the state of the transceivers. *)
Theorem updateVideoTransceivers_camera_sentinel vsi videosToReceive w :
  useTransceivers w = true →
  (updateVideoTransceivers vsi videosToReceive w).2 !! 0 = Some 0%Z.
Proof.
  intros Huse.
  by destruct (updateVideoTransceivers_shape vsi videosToReceive w Huse)
    as (rec & -> & _).
Qed.

Lemma useTransceivers_false w :
  useTransceivers w = false ↔
  peer (ctl w) = None ∨ requiresUnifiedPlan w = false
  ∨ getTransceiversDefined (connection w) = false.
Proof.
  unfold useTransceivers.
  destruct (peer (ctl w)), (requiresUnifiedPlan w),
    (getTransceiversDefined (connection w)); simpl;
    intuition congruence.
Qed.

(** C9 (no usable peer connection): when [useTransceivers()] is false,
    that is with no peer, no unified plan or no [getTransceivers], the
    call changes nothing and returns the array of the desired set. *)
Theorem updateVideoTransceivers_passthrough vsi videosToReceive w :
  peer (ctl w) = None ∨ requiresUnifiedPlan w = false
  ∨ getTransceiversDefined (connection w) = false →
  useTransceivers w = false
  ∧ updateVideoTransceivers vsi videosToReceive w
    = (w, array videosToReceive).
Proof.
  intros Huse%useTransceivers_false. split; [done|].
  unfold updateVideoTransceivers. by rewrite Huse.
Qed.

(** ** Completeness: no desired stream id is dropped *)

Lemma count_occ_cons_decide (y s : Z) (l : list Z) :
  count_occ Z.eq_dec (y :: l) s
  = (if decide (y = s) then 1 else 0) + count_occ Z.eq_dec l s.
Proof. simpl. destruct (Z.eq_dec y s); case_decide; done. Qed.

Lemma count_occ_snoc_decide (y s : Z) (l : list Z) :
  count_occ Z.eq_dec (l ++ [y]) s
  = count_occ Z.eq_dec l s + (if decide (y = s) then 1 else 0).
Proof.
  rewrite count_occ_app, count_occ_cons_decide. simpl. lia.
Qed.

Lemma applyAction_count vsi i t r (s : Z) :
  s ≠ 0%Z →
  let ra := applyAction i (action vsi t (videosRemaining r)) r in
  count_occ Z.eq_dec (subs ra) s + count_occ Z.eq_dec (videosRemaining ra) s
  = count_occ Z.eq_dec (subs r) s + count_occ Z.eq_dec (videosRemaining r) s.
Proof.
  intros Hs ra. subst ra. rewrite applyAction_subs, count_occ_snoc_decide.
  unfold action.
  destruct (decide (direction t ≠ inactive)) as [Hact|Hin].
  - destruct (streamIdForTrack vsi (trackId t)) as [sid|]; last first.
    { cbn [applyAction recorded videosRemaining]. case_decide; [congruence|lia]. }
    destruct (pick _ _) as [[y rest]|] eqn:Hpick.
    + cbn [applyAction recorded videosRemaining].
      rewrite (proj1 (Permutation_count_occ Z.eq_dec _ _)
                 (pick_Permutation _ _ _ _ Hpick)), count_occ_cons_decide.
      lia.
    + destruct (videosRemaining r) eqn:Hrem;
        cbn [applyAction recorded videosRemaining]; rewrite ?Hrem;
        case_decide; congruence || lia.
  - destruct (videosRemaining r) as [|y rest] eqn:Hrem;
      cbn [applyAction recorded videosRemaining].
    + case_decide; [congruence|lia].
    + rewrite count_occ_cons_decide. lia.
Qed.

Lemma loopTransceivers_count vsi refs n r (s : Z) :
  NoDup refs → Forall (λ j, j < length (objs r)) refs → length (subs r) = n →
  s ≠ 0%Z →
  count_occ Z.eq_dec (subs (loopTransceivers vsi refs n r)) s
  + count_occ Z.eq_dec (videosRemaining (loopTransceivers vsi refs n r)) s
  = count_occ Z.eq_dec (subs r) s + count_occ Z.eq_dec (videosRemaining r) s.
Proof.
  intros Hnd Hval Hn Hs. revert refs n r Hnd Hval Hn.
  apply (loopTransceivers_ind vsi
    (λ _ _ r r',
       count_occ Z.eq_dec (subs r') s
       + count_occ Z.eq_dec (videosRemaining r') s
       = count_occ Z.eq_dec (subs r) s
         + count_occ Z.eq_dec (videosRemaining r) s)); [done|].
  intros i refs n r t _ _ _ ra _ _ _ ->. by apply applyAction_count.
Qed.

(** A slot that records a stream id has been switched to [recvonly], and
    stays so until the call returns. *)
Lemma loopTransceivers_recvonly vsi refs n r :
  NoDup refs → Forall (λ j, j < length (objs r)) refs → length (subs r) = n →
  ∀ k i v,
    refs !! k = Some i →
    subs (loopTransceivers vsi refs n r) !! (length (subs r) + k) = Some v →
    v ≠ 0%Z →
    ∃ t, objs (loopTransceivers vsi refs n r) !! i = Some t
         ∧ direction t = recvonly.
Proof.
  revert refs n r.
  apply (loopTransceivers_ind vsi
    (λ refs _ r r',
       ∀ k i v, refs !! k = Some i →
                subs r' !! (length (subs r) + k) = Some v → v ≠ 0%Z →
                ∃ t, objs r' !! i = Some t ∧ direction t = recvonly)).
  { intros _ r k i v Hk. by rewrite lookup_nil in Hk. }
  intros i refs n r t Ht Hn Hi ra Hnd Hval Hn' IH k j v Hk Hv Hv0.
  destruct k as [|k]; simpl in Hk.
  - injection Hk as <-.
    destruct (loopTransceivers_subs vsi refs (S n) ra Hnd Hval Hn')
      as (rec & Hrec & _).
    rewrite Hrec in Hv. subst ra. rewrite applyAction_subs in Hv.
    rewrite Nat.add_0_r, <- app_assoc, lookup_app_r, Nat.sub_diag in Hv by done.
    injection Hv as <-.
    rewrite (loopTransceivers_frame vsi refs (S n) _ i Hnd Hval Hn' Hi).
    exists (withDirection recvonly t).
    destruct (action vsi t (videosRemaining r)); simpl in *; try done;
      by rewrite setDirection_lookup, Ht.
  - apply (IH k j v Hk); [|done].
    rewrite Hn'. rewrite Hn in Hv.
    by replace (S n + k) with (n + S k) by lia.
Qed.

(** C1 (completeness): when transceivers are in use, every stream id of
    the desired set occurs exactly once in the returned array, either at
    the position of an existing video slot, whose transceiver is then
    [recvonly], or behind them, at the position of a transceiver newly
    created as [recvonly].  Stream ids are the non-zero numbers: 0 is the
    mark of an unused position. *)
Theorem updateVideoTransceivers_complete vsi videosToReceive w (s : Z) :
  useTransceivers w = true →
  NoDup (array videosToReceive) →
  s ∈ array videosToReceive →
  s ≠ 0%Z →
  let ts := transceivers (connection w) in
  let refs := videoRefs (_localCameraTransceiver (ctl w)) ts in
  let w' := (updateVideoTransceivers vsi videosToReceive w).1 in
  let result := (updateVideoTransceivers vsi videosToReceive w).2 in
  count_occ Z.eq_dec result s = 1
  ∧ ∃ p, result !! S p = Some s
         ∧ ((∃ i t, refs !! p = Some i
                    ∧ transceivers (connection w') !! i = Some t
                    ∧ direction t = recvonly)
            ∨ (length refs ≤ p
               ∧ transceivers (connection w') !! (length ts + (p - length refs))
                 = Some (freshTransceiver video recvonly))).
Proof.
  intros Huse Hnd Hs Hs0 ts refs w' result.
  destruct (updateVideoTransceivers_result vsi videosToReceive w Huse)
    as (Hres & Hobjs & _).
  fold result in Hres. fold w' in Hobjs. fold ts refs in Hres, Hobjs.
  set (start := {| objs := ts; subs := [0%Z];
                   bindings := streamIdToTransceiver (ctl w);
                   videosRemaining := array videosToReceive |}) in *.
  set (r1 := loopTransceivers vsi refs 1 start) in *.
  assert (NoDup refs) as Hrnd by apply videoRefs_NoDup.
  assert (Forall (λ j, j < length (objs start)) refs) as Hval
    by apply videoRefs_valid.
  assert (length (subs start) = 1) as Hn by done.
  destruct (loopTransceivers_subs vsi refs 1 start Hrnd Hval Hn)
    as (rec & Hrec & Hlen).
  fold r1 in Hrec. simpl in Hrec.
  rewrite createTransceivers_subs, Hrec in Hres.
  rewrite createTransceivers_objs in Hobjs.
  assert (count_occ Z.eq_dec result s = 1) as Hcount.
  { pose proof (loopTransceivers_count vsi refs 1 start s Hrnd Hval Hn Hs0)
      as Hc.
    fold r1 in Hc. rewrite Hrec in Hc. cbn [subs videosRemaining start] in Hc.
    rewrite Hres, count_occ_app, Hc, count_occ_cons_decide.
    assert (count_occ Z.eq_dec (array videosToReceive) s = 1) as H1.
    { apply (proj1 (NoDup_count_occ' Z.eq_dec _)).
      - by apply NoDup_ListNoDup.
      - by apply list_elem_of_In. }
    case_decide; [congruence|]. simpl. lia. }
  split; [done|].
  assert (s ∈ result) as Hin.
  { apply list_elem_of_In, (count_occ_In Z.eq_dec). lia. }
  apply list_elem_of_lookup in Hin as [[|p] Hp].
  { rewrite Hres in Hp. simpl in Hp. congruence. }
  exists p. split; [done|].
  rewrite Hres in Hp. simpl in Hp.
  destruct (decide (p < length rec)) as [Hlt|Hge].
  - left. rewrite lookup_app_l in Hp by done.
    destruct (lookup_lt_is_Some_2 refs p) as [i Hi]; [lia|].
    destruct (loopTransceivers_recvonly vsi refs 1 start Hrnd Hval Hn p i s Hi)
      as (t & Ht & Hdir); [|done|].
    { fold r1. by rewrite Hrec. }
    exists i, t. rewrite Hobjs. split; [done|]. split; [|done].
    rewrite lookup_app_l; [done|]. by eapply lookup_lt_Some.
  - right. split; [lia|].
    rewrite lookup_app_r in Hp by lia.
    rewrite Hobjs.
    assert (length (objs r1) = length ts) as Hl
      by apply (loopTransceivers_objs_length vsi refs 1 start Hrnd Hval Hn).
    rewrite lookup_app_r by lia.
    apply lookup_replicate_2.
    apply lookup_lt_Some in Hp. lia.
Qed.

(** ** The scenarios of the specification that the code follows *)

(** Scenario A: two inactive slots take the streams 5 and 9 in order, and
    no transceiver is created. *)
Example scenarioA_fills_in_order :
  let out := updateVideoTransceivers (indexOf [] ownGroup)
               {| ids := [5%Z; 9%Z] |} scenarioA in
  out.2 = [0%Z; 5%Z; 9%Z]
  ∧ direction <$> transceivers (connection out.1)
    = [inactive; recvonly; recvonly]
  ∧ streamIdToTransceiver (ctl out.1) !! 5%Z = Some 1
  ∧ streamIdToTransceiver (ctl out.1) !! 9%Z = Some 2.
Proof. repeat split. Qed.

(** Scenario C: the slot bound to 5 is rebound to 7, of the same group. *)
Example scenarioC_rebinds :
  let out := updateVideoTransceivers (indexOf [("v_1", 5%Z)] (λ _ _, true))
               {| ids := [7%Z] |} scenarioB in
  out.2 = [0%Z; 7%Z]
  ∧ direction <$> transceivers (connection out.1) = [inactive; recvonly]
  ∧ streamIdToTransceiver (ctl out.1) !! 7%Z = Some 1
  ∧ streamIdToTransceiver (ctl out.1) !! 5%Z = None.
Proof. repeat split. Qed.

(** Scenario D: with no slot to reuse, one transceiver is created. *)
Example scenarioD_creates :
  let out := updateVideoTransceivers (indexOf [] ownGroup)
               {| ids := [3%Z] |} scenarioD in
  out.2 = [0%Z; 3%Z]
  ∧ transceivers (connection out.1)
    = [videoSlot "0" inactive; freshTransceiver video recvonly].
Proof. repeat split. Qed.

(** ** Scenario B: a bound slot that is no longer wanted *)

(** Scenario B is a state the controller reaches: from the camera alone,
    one call for stream 5 creates the slot and binds it; the negotiation
    that follows names the new transceiver. *)
Lemma scenarioB_reached :
  let out := updateVideoTransceivers indexB {| ids := [5%Z] |} scenarioD in
  out.2 = [0%Z; 5%Z]
  ∧ transceivers (connection out.1)
    = [videoSlot "0" inactive; freshTransceiver video recvonly]
  ∧ streamIdToTransceiver (ctl out.1) = streamIdToTransceiver (ctl scenarioB).
Proof. repeat split. Qed.

(** C3 (Scenario B): with one [recvonly] slot whose tag resolves to 5 and
    which is bound to 5, and an empty desired set, the call returns
    [[0; 0]] but the slot stays [recvonly] and 5 stays bound: the inner
    loop never runs on an empty [videosRemaining], and the branch that
    switches slots off is not reached from an active slot. *)
Theorem scenarioB_slot_left_active :
  let out := updateVideoTransceivers indexB {| ids := [] |} scenarioB in
  out.2 = [0%Z; 0%Z]
  ∧ direction <$> transceivers (connection out.1) !! 1 = Some recvonly
  ∧ streamIdToTransceiver (ctl out.1) !! 5%Z = Some 1.
Proof. repeat split. Qed.

(** C2 (no orphan bindings): after the call of Scenario B the map still
    has the key 5, which is not in the desired set. *)
Theorem scenarioB_orphan_binding :
  let videosToReceive := {| ids := [] |} in
  let out := updateVideoTransceivers indexB videosToReceive scenarioB in
  useTransceivers scenarioB = true
  ∧ is_Some (streamIdToTransceiver (ctl out.1) !! 5%Z)
  ∧ 5%Z ∉ array videosToReceive.
Proof.
  repeat split.
  - by eexists.
  - apply not_elem_of_nil.
Qed.

(** ** [reset] *)

(** C6, as stated, fails: [reset] leaves the bindings of Scenario B in
    place. *)
Lemma reset_keeps_bindings : ¬ resetClearsBindings scenarioB.
Proof.
  intros (_ & Hmap & _).
  assert (streamIdToTransceiver (ctl (reset scenarioB)) !! 5%Z = Some 1)
    as Hbound by reflexivity.
  by rewrite Hmap in Hbound.
Qed.

(** C6, amended: after [reset()] the subscription array is empty, as in a
    new controller, the references to the local transceivers, the default
    media stream and the peer are cleared, the [streamIdToTransceiver] map
    is the one from before the call, and the connection with all its
    transceivers is untouched. *)
Theorem reset_spec w :
  videoSubscriptions (ctl (reset w)) = videoSubscriptions initialController
  ∧ _localCameraTransceiver (ctl (reset w)) = None
  ∧ _localAudioTransceiver (ctl (reset w)) = None
  ∧ defaultMediaStream (ctl (reset w)) = None
  ∧ peer (ctl (reset w)) = None
  ∧ streamIdToTransceiver (ctl (reset w)) = streamIdToTransceiver (ctl w)
  ∧ connection (reset w) = connection w.
Proof. by repeat split. Qed.

(** ** Slots whose tag does not resolve *)

Lemma action_unresolved vsi t remaining :
  direction t ≠ inactive → streamIdForTrack vsi (trackId t) = None →
  action vsi t remaining = Skip.
Proof.
  intros Hact Hnone. unfold action.
  rewrite decide_True by done. by rewrite Hnone.
Qed.

Lemma loopTransceivers_unresolved vsi refs n r :
  NoDup refs → Forall (λ j, j < length (objs r)) refs → length (subs r) = n →
  ∀ p i t,
    refs !! p = Some i → objs r !! i = Some t →
    direction t ≠ inactive → streamIdForTrack vsi (trackId t) = None →
    objs (loopTransceivers vsi refs n r) !! i = Some t
    ∧ subs (loopTransceivers vsi refs n r) !! (length (subs r) + p)
      = Some 0%Z.
Proof.
  revert refs n r.
  apply (loopTransceivers_ind vsi
    (λ refs _ r r',
       ∀ p i t, refs !! p = Some i → objs r !! i = Some t →
                direction t ≠ inactive →
                streamIdForTrack vsi (trackId t) = None →
                objs r' !! i = Some t
                ∧ subs r' !! (length (subs r) + p) = Some 0%Z)).
  { intros _ r p i t Hp. by rewrite lookup_nil in Hp. }
  intros i refs n r t Ht Hn Hi ra Hnd Hval Hn' IH p j u Hp Hu Hact Hnone.
  destruct p as [|p]; simpl in Hp.
  - injection Hp as <-. assert (u = t) as -> by congruence.
    assert (ra = applyAction i Skip r) as Hra
      by (subst ra; by rewrite action_unresolved).
    rewrite (loopTransceivers_frame vsi refs (S n) _ i Hnd Hval Hn' Hi).
    destruct (loopTransceivers_subs vsi refs (S n) ra Hnd Hval Hn')
      as (rec & -> & _).
    rewrite Hra. simpl. split; [done|].
    by rewrite Nat.add_0_r, <- app_assoc, lookup_app_r, Nat.sub_diag.
  - assert (i ≠ j) as Hne.
    { intros ->. apply Hi. by eapply list_elem_of_lookup_2. }
    destruct (IH p j u Hp) as [Hobj Hsub]; try done.
    { subst ra. by rewrite applyAction_objs_ne. }
    split; [done|]. rewrite Hn' in Hsub. rewrite Hn.
    by replace (n + S p) with (S n + p) by lia.
Qed.

(** The code does not meet C5: in Scenario B with an index that knows no
    track, the slot is not deactivated; it is still [recvonly] after the
    call. *)
Lemma unresolved_slot_stays_active :
  ¬ unresolvedSlotsDeactivated (indexOf [] ownGroup) {| ids := [9%Z] |}
      scenarioB.
Proof.
  intros H.
  destruct (H 0 1 (videoSlot "1" recvonly)) as [Hdir _]; done.
Qed.

(** The same on every state: the guard [streamId !== undefined] of line
    238 has no else branch, so a video transceiver that is not inactive
    and whose tag the index cannot resolve keeps its direction while 0 is
    recorded at its position, although 0 marks an inactive slot (lines
    203-204) and the path of a tag that resolves without a match (lines
    249-251) switches the slot off. *)
Lemma updateVideoTransceivers_unresolved vsi videosToReceive w p i t :
  useTransceivers w = true →
  videoRefs (_localCameraTransceiver (ctl w)) (transceivers (connection w))
    !! p = Some i →
  transceivers (connection w) !! i = Some t →
  direction t ≠ inactive →
  streamIdForTrack vsi (trackId t) = None →
  let out := updateVideoTransceivers vsi videosToReceive w in
  transceivers (connection out.1) !! i = Some t
  ∧ out.2 !! S p = Some 0%Z.
Proof.
  intros Huse Hp Ht Hact Hnone out.
  destruct (updateVideoTransceivers_result vsi videosToReceive w Huse)
    as (Hres & Hobjs & _).
  fold out in Hres, Hobjs. rewrite Hres, Hobjs.
  rewrite createTransceivers_objs, createTransceivers_subs.
  set (refs := videoRefs _ _) in *.
  set (start := {| objs := transceivers (connection w); subs := [0%Z];
                   bindings := streamIdToTransceiver (ctl w);
                   videosRemaining := array videosToReceive |}).
  destruct (loopTransceivers_unresolved vsi refs 1 start
              (videoRefs_NoDup _ _) (videoRefs_valid _ _) eq_refl
              p i t Hp Ht Hact Hnone) as [Hobj Hsub].
  simpl in Hsub. split.
  - rewrite lookup_app_l; [done|]. by eapply lookup_lt_Some.
  - rewrite lookup_app_l; [done|]. by eapply lookup_lt_Some.
Qed.

(** C5: the code leaves an active slot whose tag the index cannot resolve
    as it is.  In Scenario B with an index that knows no track, the slot
    bound to stream 5 does not resolve; with an empty desired set the
    call returns [[0; 0]] and the slot is still [recvonly], and with
    stream 9 desired it returns [[0; 0; 9]]: the slot is still
    [recvonly] with 0 at its position, and 9 has a new transceiver. *)
Theorem scenarioB_unresolved_left_active :
  let vsi := indexOf [] ownGroup in
  let slot := videoSlot "1" recvonly in
  let out0 := updateVideoTransceivers vsi {| ids := [] |} scenarioB in
  let out9 := updateVideoTransceivers vsi {| ids := [9%Z] |} scenarioB in
  transceivers (connection scenarioB) !! 1 = Some slot
  ∧ streamIdForTrack vsi (trackId slot) = None
  ∧ out0.2 = [0%Z; 0%Z]
  ∧ transceivers (connection out0.1) = [videoSlot "0" inactive; slot]
  ∧ out9.2 = [0%Z; 0%Z; 9%Z]
  ∧ transceivers (connection out9.1)
    = [videoSlot "0" inactive; slot; freshTransceiver video recvonly].
Proof. repeat split. Qed.

(** ** Rebinding within a group *)

Lemma loopTransceivers_app vsi refs1 refs2 n r :
  loopTransceivers vsi (refs1 ++ refs2) n r
  = loopTransceivers vsi refs2 (n + length refs1)
      (loopTransceivers vsi refs1 n r).
Proof.
  revert n r. induction refs1 as [|i refs1 IH]; intros n r; simpl.
  - by rewrite Nat.add_0_r.
  - rewrite IH. f_equal. lia.
Qed.

(** Slots that are active and do not resolve into the group of the one
    remaining stream [y] take nothing: they record 0 and leave the bindings
    and [videosRemaining] alone. *)
Lemma loopTransceivers_pass vsi (y : Z) refs n r :
  NoDup refs → Forall (λ j, j < length (objs r)) refs → length (subs r) = n →
  videosRemaining r = [y] →
  (∀ j u, j ∈ refs → objs r !! j = Some u →
          direction u ≠ inactive
          ∧ ∀ x', streamIdForTrack vsi (trackId u) = Some x' →
                  StreamIdsInSameGroup vsi x' y = false) →
  videosRemaining (loopTransceivers vsi refs n r) = [y]
  ∧ bindings (loopTransceivers vsi refs n r) = bindings r
  ∧ subs (loopTransceivers vsi refs n r)
    = subs r ++ replicate (length refs) 0%Z.
Proof.
  revert refs n r.
  apply (loopTransceivers_ind vsi
    (λ refs _ r r',
       videosRemaining r = [y] →
       (∀ j u, j ∈ refs → objs r !! j = Some u →
               direction u ≠ inactive
               ∧ ∀ x', streamIdForTrack vsi (trackId u) = Some x' →
                       StreamIdsInSameGroup vsi x' y = false) →
       videosRemaining r' = [y] ∧ bindings r' = bindings r
       ∧ subs r' = subs r ++ replicate (length refs) 0%Z)).
  { intros _ r Hrem _. by rewrite app_nil_r. }
  intros i refs n r t Ht Hn Hi ra Hnd Hval Hn' IH Hrem Hpass.
  destruct (Hpass i t) as [Hact Hgroup]; [by left|done|].
  assert (ra = applyAction i Deactivate r ∨ ra = applyAction i Skip r)
    as Hra.
  { subst ra. unfold action. rewrite decide_True by done. rewrite Hrem.
    destruct (streamIdForTrack vsi (trackId t)) as [x'|]; [|by right].
    simpl. rewrite (Hgroup x' eq_refl). by left. }
  destruct IH as (Hrem' & Hb & Hs).
  - destruct Hra as [-> | ->]; done.
  - intros j u Hj Hu. apply (Hpass j u); [by right|].
    rewrite <- Hu. symmetry. subst ra. apply applyAction_objs_ne.
    by intros ->.
  - rewrite Hrem', Hb, Hs.
    destruct Hra as [-> | ->]; simpl; by rewrite <- app_assoc.
Qed.

(** With nothing remaining, the rest of the loop records zeros, adds no
    binding and drops only bindings of the slots it releases. *)
Lemma loopTransceivers_idle vsi refs n r :
  NoDup refs → Forall (λ j, j < length (objs r)) refs → length (subs r) = n →
  videosRemaining r = [] →
  videosRemaining (loopTransceivers vsi refs n r) = []
  ∧ subs (loopTransceivers vsi refs n r)
    = subs r ++ replicate (length refs) 0%Z
  ∧ (∀ k v, bindings (loopTransceivers vsi refs n r) !! k = Some v →
            bindings r !! k = Some v)
  ∧ (∀ k v, bindings r !! k = Some v → v ∉ refs →
            bindings (loopTransceivers vsi refs n r) !! k = Some v).
Proof.
  revert refs n r.
  apply (loopTransceivers_ind vsi
    (λ refs _ r r',
       videosRemaining r = [] →
       videosRemaining r' = []
       ∧ subs r' = subs r ++ replicate (length refs) 0%Z
       ∧ (∀ k v, bindings r' !! k = Some v → bindings r !! k = Some v)
       ∧ (∀ k v, bindings r !! k = Some v → v ∉ refs →
                 bindings r' !! k = Some v))).
  { intros _ r Hrem. by rewrite app_nil_r. }
  intros i refs n r t Ht Hn Hi ra Hnd Hval Hn' IH Hrem.
  assert (ra = applyAction i Skip r ∨ ra = applyAction i Release r) as Hra.
  { subst ra. unfold action. rewrite Hrem.
    destruct (decide (direction t ≠ inactive)); [|by right].
    left. by destruct (streamIdForTrack vsi (trackId t)). }
  destruct IH as (Hrem' & Hs & Hsub & Hkeep).
  { destruct Hra as [-> | ->]; done. }
  split; [done|]. split.
  { rewrite Hs. destruct Hra as [-> | ->]; simpl; by rewrite <- app_assoc. }
  split.
  - intros k v Hk. apply Hsub in Hk.
    destruct Hra as [-> | ->]; simpl in Hk; [done|].
    by apply map_lookup_filter_Some in Hk as [Hk _].
  - intros k v Hk Hv. apply not_elem_of_cons in Hv as [Hne Hv].
    apply Hkeep; [|done].
    destruct Hra as [-> | ->]; simpl; [done|].
    by apply map_lookup_filter_Some.
Qed.

(** C7, as stated, fails: in Scenario C with an inactive slot ahead of
    the bound one, the stream goes to the inactive slot and the array is
    [[0; 7; 0]]. *)
Lemma earlier_inactive_slot_takes_stream :
  ¬ sameGroupRebinds indexC' scenarioC' 2 5%Z 7%Z.
Proof.
  intros H.
  destruct (H 1 (videoSlot "2" recvonly)) as (_ & Hres & _); try done.
Qed.

(** C7, amended: let [x] be bound to an existing non-camera slot that is
    [recvonly] and whose tag resolves to [x], let the desired set be the
    single stream [y] with [StreamIdsInSameGroup(x, y)], and let every
    earlier video slot be active without resolving into the group of [y].
    Then reconciliation rebinds that slot: the transceiver is unchanged
    (still [recvonly]), [y] is recorded at its subscription position, the
    array has one entry per existing slot, the map binds [y] to the slot
    and no longer [x], and no transceiver is created. *)
Theorem updateVideoTransceivers_rebind vsi w p i t (x y : Z) :
  let ts := transceivers (connection w) in
  let refs := videoRefs (_localCameraTransceiver (ctl w)) ts in
  let out := updateVideoTransceivers vsi {| ids := [y] |} w in
  useTransceivers w = true →
  refs !! p = Some i → ts !! i = Some t →
  direction t = recvonly →
  streamIdForTrack vsi (trackId t) = Some x →
  streamIdToTransceiver (ctl w) !! x = Some i →
  StreamIdsInSameGroup vsi x y = true →
  earlierSlotsPass vsi ts refs p y →
  transceivers (connection out.1) !! i = Some t
  ∧ out.2 !! S p = Some y
  ∧ length out.2 = S (length refs)
  ∧ streamIdToTransceiver (ctl out.1) !! y = Some i
  ∧ (x ≠ y → streamIdToTransceiver (ctl out.1) !! x = None)
  ∧ length (transceivers (connection out.1)) = length ts.
Proof.
  intros ts refs out Huse Hp Ht Hdir Hx Hbound Hgroup Hpass.
  destruct (updateVideoTransceivers_result vsi {| ids := [y] |} w Huse)
    as (Hres & Hobjs & Hmap).
  fold out in Hres, Hobjs, Hmap. fold ts refs in Hres, Hobjs, Hmap.
  set (start := {| objs := ts; subs := [0%Z];
                   bindings := streamIdToTransceiver (ctl w);
                   videosRemaining := array {| ids := [y] |} |}) in *.
  (* the slots before [i], [i] itself, and the slots after it *)
  pose proof (take_drop_middle refs p i Hp) as Hsplit.
  set (pre := take p refs) in *. set (post := drop (S p) refs) in *.
  assert (length pre = p) as Hlen_pre.
  { subst pre. rewrite length_take. apply lookup_lt_Some in Hp. lia. }
  pose proof (videoRefs_NoDup (_localCameraTransceiver (ctl w)) ts) as Hnd.
  pose proof (videoRefs_valid (_localCameraTransceiver (ctl w)) ts) as Hval.
  fold refs in Hnd, Hval. rewrite <- Hsplit in Hnd, Hval.
  apply NoDup_app in Hnd as (Hnd_pre & Hdisj & Hnd_post).
  apply Forall_app in Hval as [Hval_pre Hval_post].
  assert (i ∉ pre) as Hi_pre.
  { intros Hin. apply (Hdisj i Hin). by left. }
  apply NoDup_cons in Hnd_post as [Hi_post Hnd_post].
  apply Forall_cons in Hval_post as [_ Hval_post].
  (* before [i] *)
  set (rpre := loopTransceivers vsi pre 1 start).
  destruct (loopTransceivers_pass vsi y pre 1 start Hnd_pre Hval_pre eq_refl
              eq_refl) as (Hrem_pre & Hb_pre & Hs_pre).
  { intros j u Hj Hu. apply list_elem_of_lookup in Hj as [q Hq].
    subst pre. apply lookup_take_Some in Hq as [Hq Hlt].
    by apply (Hpass q j u). }
  fold rpre in Hrem_pre, Hb_pre, Hs_pre.
  assert (objs rpre !! i = Some t) as Ht_pre.
  { subst rpre.
    by rewrite (loopTransceivers_frame vsi pre 1 start i Hnd_pre Hval_pre
                  eq_refl Hi_pre). }
  assert (length (objs rpre) = length ts) as Hlen_objs_pre
    by apply (loopTransceivers_objs_length vsi pre 1 start Hnd_pre Hval_pre
                eq_refl).
  assert (length (subs rpre) = 1 + p) as Hlen_subs_pre.
  { rewrite Hs_pre. simpl. by rewrite length_replicate, Hlen_pre. }
  (* at [i] *)
  set (ri := applyAction i (Rebind x y []) rpre).
  assert (loopTransceivers vsi refs 1 start
          = loopTransceivers vsi post (S (1 + p)) ri) as Hloop.
  { rewrite <- Hsplit, loopTransceivers_app. fold rpre. rewrite Hlen_pre.
    cbn [loopTransceivers].
    rewrite (stepTransceiver_action vsi i (1 + p) rpre t Ht_pre Hlen_subs_pre).
    subst ri. do 2 f_equal. unfold action.
    rewrite decide_True by (by rewrite Hdir). rewrite Hx, Hrem_pre.
    simpl. by rewrite Hgroup. }
  assert (objs ri = objs rpre) as Hobjs_i.
  { subst ri. simpl. by apply (setDirection_same i recvonly _ t). }
  assert (Forall (λ j, j < length (objs ri)) post) as Hval_i.
  { rewrite Hobjs_i, Hlen_objs_pre. done. }
  assert (length (subs ri) = S (1 + p)) as Hlen_subs_i.
  { subst ri. rewrite applyAction_subs, length_app, Hlen_subs_pre.
    simpl. lia. }
  (* behind [i] *)
  destruct (loopTransceivers_idle vsi post (S (1 + p)) ri Hnd_post Hval_i
              Hlen_subs_i eq_refl) as (Hrem & Hs & Hsub & Hkeep).
  rewrite <- Hloop in Hrem, Hs, Hsub, Hkeep.
  rewrite Hrem in Hres, Hobjs, Hmap. simpl in Hres, Hobjs, Hmap.
  rewrite Hres, Hobjs, Hmap. clear Hres Hobjs Hmap.
  assert (objs (loopTransceivers vsi refs 1 start) !! i = Some t) as Ht_end.
  { rewrite Hloop.
    rewrite (loopTransceivers_frame vsi post _ ri i Hnd_post Hval_i
               Hlen_subs_i Hi_post).
    by rewrite Hobjs_i. }
  assert (subs ri = (0%Z :: replicate p 0%Z) ++ [y]) as Hs_i.
  { subst ri. by rewrite applyAction_subs, Hs_pre, Hlen_pre. }
  split; [done|]. split.
  { rewrite Hs, Hs_i, <- app_assoc. simpl.
    by rewrite lookup_app_r, length_replicate, Nat.sub_diag
      by (by rewrite length_replicate). }
  split.
  { rewrite Hs, Hs_i, !length_app. simpl.
    rewrite !length_replicate, <- Hsplit, length_app. simpl.
    fold post. lia. }
  split.
  { apply Hkeep; [|done]. subst ri. simpl. apply lookup_insert_eq. }
  split.
  { intros Hne.
    destruct (bindings (loopTransceivers vsi refs 1 start) !! x)
      as [v|] eqn:Hv; [|done].
    apply Hsub in Hv. subst ri. simpl in Hv.
    rewrite lookup_insert_ne, lookup_delete_eq in Hv by done. done. }
  rewrite Hloop.
  rewrite (loopTransceivers_objs_length vsi post _ ri Hnd_post Hval_i
             Hlen_subs_i).
  by rewrite Hobjs_i.
Qed.

(** ** Calling twice *)

Lemma applyAction_objs i a r :
  objs (applyAction i a r)
  = match target a with
    | Some d => setDirection i d (objs r)
    | None => objs r
    end.
Proof. by destruct a. Qed.

Lemma applyAction_remaining i a r :
  videosRemaining (applyAction i a r)
  = match a with
    | Rebind _ _ rest | Fill _ rest => rest
    | Release => []
    | Deactivate | Skip => videosRemaining r
    end.
Proof. by destruct a. Qed.

(** The action depends on the transceiver through its tag and through
    whether it is inactive. *)
Lemma action_ext vsi t t' remaining :
  sameSlot t t' → (direction t = inactive ↔ direction t' = inactive) →
  action vsi t remaining = action vsi t' remaining.
Proof.
  intros (Hmid & _ & _) Hdir. unfold action, trackId. rewrite Hmid.
  destruct (decide (direction t ≠ inactive)) as [Ht|Ht],
           (decide (direction t' ≠ inactive)) as [Ht'|Ht']; try done.
  - apply dec_stable in Ht'. apply Hdir in Ht'. done.
  - apply dec_stable in Ht. apply Hdir in Ht. done.
Qed.

Lemma sameSlot_refl t : sameSlot t t.
Proof. done. Qed.

Lemma sameSlot_diag (l : list RTCRtpTransceiver) : Forall2 sameSlot l l.
Proof. apply Forall_Forall2_diag, Forall_true, sameSlot_refl. Qed.

Lemma applyAction_sameSlot i a r :
  Forall2 sameSlot (objs r) (objs (applyAction i a r)).
Proof.
  rewrite applyAction_objs. destruct (target a) as [d|].
  - apply Forall2_alter_r; [apply sameSlot_diag|].
    intros t t' _ _ (Hmid & Hr & Hs). by destruct t'.
  - apply sameSlot_diag.
Qed.

Lemma sameSlot_trans t1 t2 t3 :
  sameSlot t1 t2 → sameSlot t2 t3 → sameSlot t1 t3.
Proof.
  intros (? & ? & ?) (? & ? & ?). repeat split; congruence.
Qed.

Lemma loopTransceivers_sameSlot vsi refs n r :
  NoDup refs → Forall (λ j, j < length (objs r)) refs → length (subs r) = n →
  Forall2 sameSlot (objs r) (objs (loopTransceivers vsi refs n r)).
Proof.
  revert refs n r.
  apply (loopTransceivers_ind vsi
           (λ _ _ r r', Forall2 sameSlot (objs r) (objs r'))).
  { intros _ r. apply sameSlot_diag. }
  intros i refs n r t _ _ _ ra _ _ _ IH.
  eapply Forall2_trans; [|apply applyAction_sameSlot|exact IH].
  intros ???. apply sameSlot_trans.
Qed.

Lemma videoRefs_ext camera (l1 l2 : list RTCRtpTransceiver) :
  Forall2 sameSlot l1 l2 → videoRefs camera l1 = videoRefs camera l2.
Proof.
  unfold videoRefs. intros Hl.
  assert (∀ k,
    (filter (λ it : nat * RTCRtpTransceiver,
               camera ≠ Some it.1 ∧ transceiverIsVideo it.2 = true)
       (imap (λ i t, (k + i, t)) l1)).*1
    = (filter (λ it : nat * RTCRtpTransceiver,
                 camera ≠ Some it.1 ∧ transceiverIsVideo it.2 = true)
         (imap (λ i t, (k + i, t)) l2)).*1) as Hgen.
  { induction Hl as [|t1 t2 l1 l2 (Hmid & Hr & Hs) Hl IH]; intros k; [done|].
    rewrite !imap_cons.
    rewrite (imap_ext _ (λ i t, (S k + i, t)) l1)
      by (intros; simpl; f_equal; lia).
    rewrite (imap_ext _ (λ i t, (S k + i, t)) l2)
      by (intros; simpl; f_equal; lia).
    rewrite !filter_cons. simpl.
    assert (transceiverIsVideo t1 = transceiverIsVideo t2) as Hv
      by (unfold transceiverIsVideo; by rewrite Hr, Hs).
    rewrite Hv.
    destruct (decide (camera ≠ Some (k + 0)
                      ∧ transceiverIsVideo t2 = true));
      simpl; [f_equal|]; exact (IH (S k)). }
  apply (Hgen 0).
Qed.

Lemma videoRefs_app camera (l1 l2 : list RTCRtpTransceiver) :
  videoRefs camera (l1 ++ l2)
  = videoRefs camera l1
    ++ (filter (λ it : nat * RTCRtpTransceiver,
                  camera ≠ Some it.1 ∧ transceiverIsVideo it.2 = true)
          (imap (λ i t, (length l1 + i, t)) l2)).*1.
Proof. unfold videoRefs. by rewrite imap_app, filter_app, fmap_app. Qed.

Lemma videoRefs_fresh camera k n d :
  (∀ c, camera = Some c → c < k) →
  (filter (λ it : nat * RTCRtpTransceiver,
             camera ≠ Some it.1 ∧ transceiverIsVideo it.2 = true)
     (imap (λ i t, (k + i, t)) (replicate n (freshTransceiver video d)))).*1
  = seq k n.
Proof.
  revert k. induction n as [|n IH]; intros k Hc; [done|].
  cbn [replicate]. rewrite imap_cons, filter_cons_True; last first.
  { split; [|done]. simpl. intros Heq. apply Hc in Heq. lia. }
  rewrite fmap_cons. simpl. rewrite Nat.add_0_r. f_equal.
  rewrite <- (IH (S k)). 
  - do 2 f_equal. apply imap_ext. intros; simpl; f_equal; lia.
  - intros c Hcam. apply Hc in Hcam. lia.
Qed.

(** The same slot in the next call: after an action that did not switch
    the slot off, and with a tag that resolves into the group of the
    recorded stream if the action switched the slot on, the action of the
    next call records the same value, writes the direction that is there
    and leaves the same streams. *)
Lemma action_again vsi t t' remaining :
  sameSlot t t' →
  (∀ d, target (action vsi t remaining) = Some d → direction t' = d) →
  (target (action vsi t remaining) = None → t' = t) →
  (direction t ≠ inactive → direction t' ≠ inactive) →
  (direction t = inactive → direction t' ≠ inactive →
   ∃ x, streamIdForTrack vsi (trackId t') = Some x
        ∧ StreamIdsInSameGroup vsi x (recorded (action vsi t remaining))
          = true) →
  let a := action vsi t remaining in
  let a2 := action vsi t' remaining in
  recorded a2 = recorded a ∧ target a2 = target a
  ∧ ∀ i r r2, videosRemaining r2 = videosRemaining r →
              videosRemaining (applyAction i a2 r2)
              = videosRemaining (applyAction i a r).
Proof.
  intros Hslot Hd Hskip Hkeep Hon a a2.
  destruct (decide (direction t ≠ inactive)) as [Hact|Hin].
  - assert (a2 = a) as ->.
    { subst a a2. symmetry. apply action_ext; [done|].
      split; intros Hdir; [done|]. by apply Hkeep in Hact. }
    repeat split. intros i r r2 Hrem.
    by rewrite !applyAction_remaining, Hrem.
  - apply dec_stable in Hin.
    assert (action vsi t remaining
            = match remaining with y :: rest => Fill y rest | [] => Release end)
      as Ha.
    { unfold action. by rewrite decide_False by (by intros []). }
    subst a. rewrite Ha in *. clear Ha. destruct remaining as [|y rest].
    + assert (a2 = Release) as ->; [|done].
      subst a2. unfold action. rewrite decide_False; [done|].
      intros Hne. apply Hne. by apply (Hd inactive).
    + assert (direction t' = recvonly) as Hrecv by (by apply Hd).
      destruct Hon as (x & Hx & Hgroup); [done|by rewrite Hrecv|].
      assert (a2 = Rebind x y rest) as ->; [|done].
      subst a2. unfold action. rewrite decide_True by (by rewrite Hrecv).
      rewrite Hx. cbn [pick recorded] in *. by rewrite Hgroup.
Qed.

(** Running the loop again on the transceivers it left, with the
    transceivers [extra] behind them: if the first run switched no slot
    off and the index resolves the slots it switched on into the groups
    of their streams, the second run records the same values and writes
    no direction that is not already there. *)
Lemma loopTransceivers_replay vsi refs n r :
  NoDup refs → Forall (λ j, j < length (objs r)) refs → length (subs r) = n →
  ∀ r2 extra,
    objs r2 = objs (loopTransceivers vsi refs n r) ++ extra →
    length (subs r2) = n →
    videosRemaining r2 = videosRemaining r →
    (∀ p i t t', refs !! p = Some i → objs r !! i = Some t →
                 objs (loopTransceivers vsi refs n r) !! i = Some t' →
                 (direction t ≠ inactive → direction t' ≠ inactive)
                 ∧ (direction t = inactive → direction t' ≠ inactive →
                    ∃ x s,
                      streamIdForTrack vsi (trackId t') = Some x
                      ∧ subs (loopTransceivers vsi refs n r) !! (n + p)
                        = Some s
                      ∧ StreamIdsInSameGroup vsi x s = true)) →
    objs (loopTransceivers vsi refs n r2) = objs r2
    ∧ videosRemaining (loopTransceivers vsi refs n r2)
      = videosRemaining (loopTransceivers vsi refs n r)
    ∧ ∃ rec, subs (loopTransceivers vsi refs n r) = subs r ++ rec
             ∧ subs (loopTransceivers vsi refs n r2) = subs r2 ++ rec.
Proof.
  revert refs n r.
  apply (loopTransceivers_ind vsi
    (λ refs n r r',
       ∀ r2 extra, objs r2 = objs r' ++ extra → length (subs r2) = n →
             videosRemaining r2 = videosRemaining r →
             (∀ p i t t', refs !! p = Some i → objs r !! i = Some t →
                          objs r' !! i = Some t' →
                          (direction t ≠ inactive → direction t' ≠ inactive)
                          ∧ (direction t = inactive →
                             direction t' ≠ inactive →
                             ∃ x s,
                               streamIdForTrack vsi (trackId t') = Some x
                               ∧ subs r' !! (n + p) = Some s
                               ∧ StreamIdsInSameGroup vsi x s = true)) →
             objs (loopTransceivers vsi refs n r2) = objs r2
             ∧ videosRemaining (loopTransceivers vsi refs n r2)
               = videosRemaining r'
             ∧ ∃ rec, subs r' = subs r ++ rec
                      ∧ subs (loopTransceivers vsi refs n r2)
                        = subs r2 ++ rec)).
  { intros n r r2 extra _ _ Hrem _. simpl. split; [done|]. split; [done|].
    exists []. by rewrite !app_nil_r. }
  intros i refs n r t Ht Hn Hi ra Hnd Hval Hn' IH r2 extra Hobjs Hn2 Hrem Hstat.
  set (a := action vsi t (videosRemaining r)) in *.
  set (r' := loopTransceivers vsi refs (S n) ra) in *.
  (* the object behind [i] after the first run *)
  assert (objs r' !! i = objs ra !! i) as Hframe
    by apply (loopTransceivers_frame vsi refs (S n) ra i Hnd Hval Hn' Hi).
  assert (∃ t', objs ra !! i = Some t' ∧ sameSlot t t'
                ∧ (∀ d, target a = Some d → direction t' = d)
                ∧ (target a = None → t' = t)) as (t' & Ht' & Hslot & Hd & Hskip).
  { subst ra. rewrite applyAction_objs. destruct (target a) as [d|].
    - exists (withDirection d t). rewrite setDirection_lookup, Ht.
      repeat split; try done. by intros ? [= <-].
    - exists t. by repeat split. }
  assert (objs r' !! i = Some t') as Ht1 by (by rewrite Hframe).
  assert (objs r2 !! i = Some t') as Ht2.
  { rewrite Hobjs, lookup_app_l; [done|]. by eapply lookup_lt_Some. }
  (* what the first run recorded for [i] *)
  destruct (loopTransceivers_subs vsi refs (S n) ra Hnd Hval Hn')
    as (rec1 & Hrec1 & _).
  fold r' in Hrec1.
  assert (subs r' !! (n + 0) = Some (recorded a)) as Hhere.
  { rewrite Hrec1. subst ra. rewrite applyAction_subs, <- app_assoc.
    rewrite Nat.add_0_r, lookup_app_r by lia.
    by replace (n - length (subs r)) with 0 by lia. }
  destruct (Hstat 0 i t t' eq_refl Ht Ht1) as [Hkeep Hon].
  destruct (action_again vsi t t' (videosRemaining r) Hslot Hd Hskip Hkeep)
    as (Hrecorded & Htarget & Hremaining).
  { intros Hin Hact. destruct (Hon Hin Hact) as (x & s & Hx & Hs & Hgroup).
    exists x. split; [done|]. fold a. congruence. }
  fold a in Hrecorded, Htarget, Hremaining.
  (* the second run at [i] *)
  cbn [loopTransceivers].
  rewrite (stepTransceiver_action vsi i n r2 t' Ht2 Hn2), Hrem.
  set (a2 := action vsi t' (videosRemaining r)) in *.
  set (r2a := applyAction i a2 r2).
  assert (objs r2a = objs r2) as Hobjs2.
  { subst r2a. rewrite applyAction_objs, Htarget.
    destruct (target a) as [d|] eqn:Ha; [|done].
    apply (setDirection_same i d _ t' Ht2). by apply Hd. }
  destruct (IH r2a extra) as (Hobjs' & Hrem' & rec & Hrec & Hrec2).
  - by rewrite Hobjs2.
  - subst r2a. rewrite applyAction_subs, length_app. simpl. lia.
  - subst r2a ra. by apply Hremaining.
  - intros p j u u' Hp Hu Hu'.
    assert (i ≠ j) as Hne.
    { intros ->. apply Hi. by eapply list_elem_of_lookup_2. }
    replace (S n + p) with (n + S p) by lia.
    apply (Hstat (S p) j u u'); [done| |done].
    rewrite <- Hu. symmetry. subst ra. by apply applyAction_objs_ne.
  - split; [by rewrite Hobjs', Hobjs2|]. split; [done|].
    exists (recorded a :: rec). split.
    + rewrite Hrec. subst ra. by rewrite applyAction_subs, <- app_assoc.
    + rewrite Hrec2. subst r2a.
      by rewrite applyAction_subs, Hrecorded, <- app_assoc.
Qed.

(** Transceivers that a call created, met by the loop of the next call:
    when the index resolves their tag into the group of each stream that
    is left, in order, each takes its stream again. *)
Lemma loopTransceivers_created vsi refs todo n r :
  length (subs r) = n →
  videosRemaining r = todo →
  length refs = length todo →
  (∀ i, i ∈ refs → objs r !! i = Some (freshTransceiver video recvonly)) →
  Forall (λ s, ∃ x, streamIdForTrack vsi
                      (trackId (freshTransceiver video recvonly)) = Some x
                    ∧ StreamIdsInSameGroup vsi x s = true) todo →
  objs (loopTransceivers vsi refs n r) = objs r
  ∧ subs (loopTransceivers vsi refs n r) = subs r ++ todo
  ∧ videosRemaining (loopTransceivers vsi refs n r) = [].
Proof.
  revert todo n r.
  induction refs as [|i refs IH]; intros todo n r Hn Hrem Hlen Hfresh Hall.
  { destruct todo; [|done]. simpl. by rewrite app_nil_r. }
  destruct todo as [|y rest]; [done|].
  apply Forall_cons in Hall as [(x & Hx & Hgroup) Hall].
  assert (objs r !! i = Some (freshTransceiver video recvonly)) as Hi
    by (apply Hfresh; by left).
  cbn [loopTransceivers].
  rewrite (stepTransceiver_action vsi i n r _ Hi Hn), Hrem.
  assert (action vsi (freshTransceiver video recvonly) (y :: rest)
          = Rebind x y rest) as ->.
  { unfold action. rewrite decide_True by done. rewrite Hx.
    cbn [pick]. by rewrite Hgroup. }
  set (ra := applyAction i (Rebind x y rest) r).
  assert (objs ra = objs r) as Hobjs.
  { subst ra. cbn [applyAction objs].
    by apply (setDirection_same i recvonly _ _ Hi). }
  destruct (IH rest (S n) ra) as (Hobjs' & Hsubs' & Hrem').
  - subst ra. cbn [applyAction subs]. rewrite length_app. simpl. lia.
  - done.
  - simpl in Hlen. lia.
  - intros j Hj. rewrite Hobjs. apply Hfresh. by right.
  - done.
  - split; [by rewrite Hobjs'|]. split; [|done].
    rewrite Hsubs'. subst ra. cbn [applyAction subs].
    by rewrite <- app_assoc.
Qed.

Lemma updateVideoTransceivers_eq vsi videosToReceive w :
  useTransceivers w = true →
  let refs := videoRefs (_localCameraTransceiver (ctl w))
                        (transceivers (connection w)) in
  let r1 := loopTransceivers vsi refs 1
              {| objs := transceivers (connection w); subs := [0%Z];
                 bindings := streamIdToTransceiver (ctl w);
                 videosRemaining := array videosToReceive |} in
  let r2 := createTransceivers (videosRemaining r1) r1 in
  updateVideoTransceivers vsi videosToReceive w = (commit r2 w, subs r2).
Proof. intros Huse. unfold updateVideoTransceivers. by rewrite Huse. Qed.

(** C8, as stated, fails: with a slot bound to 5 ahead of an inactive
    slot, the first call for stream 9 deactivates the first slot and puts
    9 on the second, [[0; 0; 9]]; the second call refills the first slot,
    now inactive, with 9: [[0; 9; 0]], and a direction has changed. *)
Lemma second_call_moves_stream :
  ¬ idempotent indexE {| ids := [9%Z] |} scenarioE.
Proof.
  intros H. destruct H as [Hres _]; [reflexivity| |done].
  intros s. by apply bool_decide_eq_true_2.
Qed.

Example scenarioE_two_calls :
  let out1 := updateVideoTransceivers indexE {| ids := [9%Z] |} scenarioE in
  let out2 := updateVideoTransceivers indexE {| ids := [9%Z] |} out1.1 in
  out1.2 = [0%Z; 0%Z; 9%Z]
  ∧ direction <$> transceivers (connection out1.1)
    = [inactive; inactive; recvonly]
  ∧ out2.2 = [0%Z; 9%Z; 0%Z]
  ∧ direction <$> transceivers (connection out2.1)
    = [inactive; recvonly; recvonly].
Proof. repeat split. Qed.

(** A transceiver that the first call creates has no [mid] yet.  With an
    index that does not resolve its tag, the second call does not find it
    again and creates another; with an index that resolves the tag to the
    stream, the second call is idle. *)
Example scenarioD_two_calls :
  let unknown := indexOf [] ownGroup in
  let known := indexOf [("v_null", 3%Z)] ownGroup in
  let out1 := updateVideoTransceivers unknown {| ids := [3%Z] |} scenarioD in
  let out2 := updateVideoTransceivers unknown {| ids := [3%Z] |} out1.1 in
  let out1' := updateVideoTransceivers known {| ids := [3%Z] |} scenarioD in
  let out2' := updateVideoTransceivers known {| ids := [3%Z] |} out1'.1 in
  out1.2 = [0%Z; 3%Z]
  ∧ out2.2 = [0%Z; 0%Z; 3%Z]
  ∧ length (transceivers (connection out2.1)) = 3
  ∧ out1'.2 = [0%Z; 3%Z]
  ∧ out2'.2 = [0%Z; 3%Z]
  ∧ transceivers (connection out2'.1) = transceivers (connection out1'.1).
Proof. repeat split. Qed.

(** C8, amended: if a call to [updateVideoTransceivers] switches no
    transceiver off, and the index resolves the tag of every video slot
    the call switched on or created into the group of the stream id
    recorded for that slot, then a second call with the same index and
    the same desired set returns the same array, changes no direction and
    creates no transceiver.  The camera reference points into the
    connection, as it does for a transceiver the controller created. *)
Theorem updateVideoTransceivers_idempotent vsi videosToReceive w :
  useTransceivers w = true →
  (∀ c, _localCameraTransceiver (ctl w) = Some c →
        c < length (transceivers (connection w))) →
  firstCallSettled vsi videosToReceive w →
  secondCallIdle vsi videosToReceive w.
Proof.
  intros Huse Hcam [Hkeep Hon]. unfold secondCallIdle.
  pose proof (updateVideoTransceivers_eq vsi videosToReceive w Huse) as H1.
  cbv zeta in H1.
  set (camera := _localCameraTransceiver (ctl w)) in *.
  set (ts := transceivers (connection w)) in *.
  set (refs := videoRefs camera ts) in *.
  set (start := {| objs := ts; subs := [0%Z];
                   bindings := streamIdToTransceiver (ctl w);
                   videosRemaining := array videosToReceive |}) in *.
  set (r1 := loopTransceivers vsi refs 1 start) in *.
  set (todo := videosRemaining r1) in *.
  set (fresh := freshTransceiver video recvonly) in *.
  pose proof (videoRefs_NoDup camera ts) as Hnd.
  pose proof (videoRefs_valid camera ts) as Hval.
  fold refs in Hnd, Hval.
  assert (length (objs r1) = length ts) as Hlen1
    by apply (loopTransceivers_objs_length vsi refs 1 start Hnd Hval eq_refl).
  destruct (loopTransceivers_subs vsi refs 1 start Hnd Hval eq_refl)
    as (rec & Hrec & Hlrec).
  fold r1 in Hrec. cbn [subs start] in Hrec.
  (* the first call *)
  rewrite H1 in Hkeep, Hon. rewrite H1.
  cbn [fst snd commit connection transceivers] in *.
  rewrite createTransceivers_objs in *. rewrite createTransceivers_subs in *.
  fold fresh in Hkeep, Hon |- *.
  set (ts1 := objs r1 ++ replicate (length todo) fresh) in *.
  assert (videoRefs camera ts1 = refs ++ seq (length ts) (length todo))
    as Hrefs1.
  { subst ts1. rewrite videoRefs_app, Hlen1. f_equal.
    - symmetry. apply videoRefs_ext.
      apply (loopTransceivers_sameSlot vsi refs 1 start Hnd Hval eq_refl).
    - by apply videoRefs_fresh. }
  rewrite Hrefs1 in Hon.
  (* the second call *)
  set (w1 := commit (createTransceivers todo r1) w).
  assert (useTransceivers w1 = true) as Huse2 by done.
  rewrite (updateVideoTransceivers_eq vsi videosToReceive w1 Huse2).
  subst w1.
  cbn [commit ctl connection _localCameraTransceiver transceivers
       streamIdToTransceiver fst snd].
  fold camera. rewrite createTransceivers_objs. fold fresh ts1.
  rewrite Hrefs1, loopTransceivers_app.
  set (start2 := {| objs := ts1; subs := [0%Z];
                    bindings := bindings (createTransceivers todo r1);
                    videosRemaining := array videosToReceive |}).
  (* the existing slots *)
  destruct (loopTransceivers_replay vsi refs 1 start Hnd Hval eq_refl start2
              (replicate (length todo) fresh))
    as (Hobjs2 & Hrem2 & rec' & Hrec1 & Hrec2); try done.
  { intros p i t t' Hp Ht Ht'. fold r1 in Ht' |- *.
    assert (ts1 !! i = Some t') as Hi1.
    { subst ts1. rewrite lookup_app_l; [done|]. by eapply lookup_lt_Some. }
    split; [by apply (Hkeep i)|].
    intros Hin Hact.
    destruct (Hon p i t') as (x & s & Hx & Hs & Hgroup); try done.
    - by apply lookup_app_l_Some.
    - intros t0 Ht0. cbn [objs start] in Ht. congruence.
    - exists x, s. repeat split; try done.
      rewrite lookup_app_l in Hs; [done|].
      rewrite Hrec, length_app, Hlrec. simpl.
      apply lookup_lt_Some in Hp. lia. }
  fold r1 in Hrem2, Hrec1. fold todo in Hrem2.
  assert (rec' = rec) as ->.
  { rewrite Hrec in Hrec1. by apply app_inv_head in Hrec1. }
  set (mid2 := loopTransceivers vsi refs 1 start2) in *.
  cbn [objs subs start2] in Hobjs2, Hrec2.
  (* the transceivers the first call created *)
  destruct (loopTransceivers_created vsi (seq (length ts) (length todo)) todo
              (1 + length refs) mid2) as (Hobjs3 & Hsubs3 & Hrem3).
  - rewrite Hrec2, length_app, Hlrec. simpl. lia.
  - done.
  - by rewrite length_seq.
  - intros i Hi. apply elem_of_seq in Hi as [Hlo Hhi].
    rewrite Hobjs2. subst ts1. rewrite lookup_app_r by lia.
    apply lookup_replicate_2. lia.
  - apply Forall_lookup. intros j s Hj.
    destruct (Hon (length refs + j) (length ts + j) fresh)
      as (x & s' & Hx & Hs' & Hgroup); try done.
    + rewrite lookup_app_r by lia.
      replace (length refs + j - length refs) with j by lia.
      apply lookup_seq. split; [done|]. by eapply lookup_lt_Some.
    + subst ts1. rewrite lookup_app_r by lia.
      apply lookup_replicate_2. apply lookup_lt_Some in Hj. lia.
    + intros t0 Ht0. apply lookup_lt_Some in Ht0. lia.
    + exists x. split; [done|].
      rewrite lookup_app_r in Hs' by (rewrite Hrec, length_app, Hlrec;
                                      simpl; lia).
      rewrite Hrec, length_app, Hlrec in Hs'. simpl in Hs'.
      replace (length refs + j - length refs) with j in Hs' by lia.
      congruence.
  - rewrite Hrem3. cbn [createTransceivers].
    by rewrite Hobjs3, Hobjs2, Hsubs3, Hrec2, Hrec.
Qed.

(** ** Encoding parameters *)

(** Doubles that compare equal are the same double, or both are zeros. *)
Lemma SFeqb_eq (f1 f2 : SpecFloat.spec_float) :
  SpecFloat.SFeqb f1 f2 = true →
  f1 = f2
  ∨ ∃ s1 s2, f1 = SpecFloat.S754_zero s1 ∧ f2 = SpecFloat.S754_zero s2.
Proof.
  unfold SpecFloat.SFeqb, SpecFloat.SFcompare.
  destruct f1 as [s1|s1| |s1 m1 e1], f2 as [s2|s2| |s2 m2 e2];
    try (by repeat case_match).
  - intros _. right. by exists s1, s2.
  - destruct s1, s2; try done; intros _; by left.
  - destruct s1, s2; try done.
    + destruct (Z.compare e1 e2) eqn:He; try done.
      destruct (Pos.compare m1 m2) eqn:Hm.
      * apply Z.compare_eq in He as ->. apply Pos.compare_eq in Hm as ->.
        by left.
      * unfold Pos.compare in Hm. by rewrite Hm.
      * unfold Pos.compare in Hm. by rewrite Hm.
    + destruct (Z.compare e1 e2) eqn:He; try done.
      destruct (Pos.compare m1 m2) eqn:Hm.
      * apply Z.compare_eq in He as ->. apply Pos.compare_eq in Hm as ->.
        by left.
      * unfold Pos.compare in Hm. by rewrite Hm.
      * unfold Pos.compare in Hm. by rewrite Hm.
Qed.

Lemma float_eqb_neq (x y : float) :
  (x =? y)%float = true → x ≠ y →
  (x =? 0)%float = true ∧ (y =? 0)%float = true.
Proof.
  rewrite !eqb_spec. intros [Heq|(s1 & s2 & H1 & H2)]%SFeqb_eq Hne.
  - by apply Prim2SF_inj in Heq.
  - by rewrite H1, H2.
Qed.

(** The test of line 39 as JavaScript evaluates it, with [!==]. *)
Lemma ridDiffers_strict (existing changed : gmap string JsValue) :
  ridDiffers existing changed
  = truthy (jsOr (getProp existing "rid") (getProp changed "rid"))
    && negb (strictEquals (getProp existing "rid") (getProp changed "rid")).
Proof.
  unfold ridDiffers.
  generalize (getProp existing "rid"), (getProp changed "rid").
  intros a b. destruct (truthy (jsOr a b)) eqn:Htruthy; [|done].
  cbn [andb]. destruct a as [|x|x|x], b as [|y|y|y]; try done.
  - by destruct x, y.
  - cbn [strictEquals]. destruct (decide (x = y)) as [->|Hne].
    + rewrite bool_decide_eq_false_2 by (by intros []).
      assert (truthy (JsNumber y) = true) as Hy.
      { destruct (truthy (JsNumber y)) eqn:Hy; [done|].
        unfold jsOr in Htruthy. rewrite Hy in Htruthy. congruence. }
      cbn [truthy] in Hy. unfold is_nan in Hy.
      by destruct (y =? y)%float; [|destruct (y =? 0)%float].
    + rewrite bool_decide_eq_true_2 by congruence.
      destruct (x =? y)%float eqn:Hxy; [|done].
      destruct (float_eqb_neq x y Hxy Hne) as [Hx Hy].
      unfold jsOr in Htruthy. cbn [truthy] in Htruthy.
      rewrite Hx in Htruthy. cbn [orb negb truthy] in Htruthy.
      by rewrite Hy in Htruthy.
  - cbn [strictEquals]. by repeat case_bool_decide; simplify_eq.
Qed.

Lemma copyFields_lookup (existing changed : gmap string JsValue) key :
  copyFields existing changed !! key
  = if bool_decide (key = "rid") || bool_decide (key = "codecPayloadType")
    then existing !! key
    else match changed !! key with
         | Some v => Some v
         | None => existing !! key
         end.
Proof.
  unfold copyFields.
  apply (map_fold_weak_ind
    (λ acc (m : gmap string JsValue),
       acc !! key
       = if bool_decide (key = "rid") || bool_decide (key = "codecPayloadType")
         then existing !! key
         else match m !! key with
              | Some v => Some v
              | None => existing !! key
              end)).
  - rewrite lookup_empty. by destruct (_ || _).
  - intros i x m acc Hi IH.
    destruct (decide (i = key)) as [->|Hne].
    + rewrite lookup_insert_eq.
      destruct (bool_decide (key = "rid") || bool_decide (key = "codecPayloadType"));
        [done|]. by rewrite lookup_insert_eq.
    + rewrite (lookup_insert_ne m) by done.
      destruct (bool_decide (i = "rid") || bool_decide (i = "codecPayloadType"));
        [done|]. by rewrite lookup_insert_ne.
Qed.

Lemma patchLayer_snoc (l : list (gmap string JsValue)) changed existing :
  patchLayer (l ++ [changed]) existing
  = if ridDiffers (patchLayer l existing) changed then patchLayer l existing
    else copyFields (patchLayer l existing) changed.
Proof. unfold patchLayer. by rewrite fold_left_app. Qed.

(** [rid] and [codecPayloadType] survive the patch. *)
Lemma patchLayer_immutable (l : list (gmap string JsValue)) existing :
  patchLayer l existing !! "rid" = existing !! "rid"
  ∧ patchLayer l existing !! "codecPayloadType"
    = existing !! "codecPayloadType".
Proof.
  induction l as [|changed l IH] using rev_ind; [done|].
  rewrite patchLayer_snoc.
  destruct (ridDiffers _ _); [done|].
  by rewrite !copyFields_lookup.
Qed.

Lemma ridDiffers_patchLayer (l : list (gmap string JsValue)) existing changed :
  ridDiffers (patchLayer l existing) changed = ridDiffers existing changed.
Proof.
  unfold ridDiffers, getProp.
  by rewrite (proj1 (patchLayer_immutable l existing)).
Qed.

Lemma ridMatches_applies (existing changed : gmap string JsValue) :
  ridMatches existing changed → ridDiffers existing changed = false.
Proof.
  unfold ridMatches, ridDiffers. intros ->.
  rewrite (bool_decide_eq_false_2 (_ ≠ _)) by (by intros []).
  apply andb_false_r.
Qed.

Lemma patchLayer_untouched (l : list (gmap string JsValue)) existing key :
  (∀ changed, changed ∈ l → ridDiffers existing changed = false →
              changed !! key = None) →
  patchLayer l existing !! key = existing !! key.
Proof.
  induction l as [|changed l IH] using rev_ind; intros Hnone; [done|].
  rewrite patchLayer_snoc, ridDiffers_patchLayer.
  assert (patchLayer l existing !! key = existing !! key) as Hl.
  { apply IH. intros c Hc. apply Hnone, elem_of_app. by left. }
  destruct (ridDiffers existing changed) eqn:Hrid; [done|].
  rewrite copyFields_lookup, Hl.
  rewrite (Hnone changed); [by destruct (_ || _)| |done].
  apply elem_of_app. right. by left.
Qed.

Lemma patchLayer_copied (l : list (gmap string JsValue)) existing
    q changed key v :
  l !! q = Some changed →
  ridDiffers existing changed = false →
  key ≠ "rid" → key ≠ "codecPayloadType" →
  changed !! key = Some v →
  (∀ q' later, q < q' → l !! q' = Some later →
               ridDiffers existing later = false → later !! key = None) →
  patchLayer l existing !! key = Some v.
Proof.
  intros Hq Hrid Hk1 Hk2 Hv.
  induction l as [|c l IH] using rev_ind; intros Hlater; [done|].
  rewrite patchLayer_snoc, ridDiffers_patchLayer.
  destruct (decide (q < length l)) as [Hlt|Hge].
  - rewrite lookup_app_l in Hq by done.
    assert (patchLayer l existing !! key = Some v) as Hl.
    { apply IH; [done|]. intros q' later Hq' Hl. apply (Hlater q'); [done|].
      rewrite lookup_app_l; [done|]. by eapply lookup_lt_Some. }
    destruct (ridDiffers existing c) eqn:Hc; [done|].
    rewrite copyFields_lookup, Hl.
    rewrite (Hlater (length l) c); [by destruct (_ || _)|done| |done].
    by rewrite lookup_app_r, Nat.sub_diag.
  - assert (q = length l) as ->.
    { apply lookup_lt_Some in Hq. rewrite length_app in Hq. simpl in Hq. lia. }
    rewrite lookup_app_r, Nat.sub_diag in Hq by done. injection Hq as ->.
    rewrite Hrid, copyFields_lookup, Hv.
    rewrite !bool_decide_eq_false_2 by done. done.
Qed.

Lemma patchLayer_layersPatched (newEncodingParams old : list (gmap string JsValue)) :
  layersPatched newEncodingParams old (patchLayer newEncodingParams <$> old).
Proof.
  split; [by rewrite length_fmap|].
  intros k existing Hk. exists (patchLayer newEncodingParams existing).
  split; [by rewrite list_lookup_fmap, Hk|].
  destruct (patchLayer_immutable newEncodingParams existing) as [Hrid Hcpt].
  split; [done|]. split; [done|]. split.
  - intros q changed key v Hq Hm. apply patchLayer_copied; [done|].
    by apply ridMatches_applies.
  - apply patchLayer_untouched.
Qed.

(** C10 (encoding parameters): with no camera transceiver, with a camera
    that is not [sendrecv], or with no or an empty patch map the call
    changes nothing.  With a [sendrecv] camera whose sender has encodings
    and a non-empty patch, the sender's parameters become the existing
    layers patched: for every existing layer and every changed layer with
    a matching rid (or none on both sides), each field the changed layer
    provides, [rid] and [codecPayloadType] apart, is copied onto the
    existing layer, and [rid] and [codecPayloadType] of every existing
    layer stay as they were. *)
Theorem setEncodingParameters_spec encodingParamMap w :
  (_localCameraTransceiver (ctl w) = None
   ∨ (∃ c camera, _localCameraTransceiver (ctl w) = Some c
                  ∧ transceivers (connection w) !! c = Some camera
                  ∧ direction camera ≠ sendrecv)
   ∨ encodingParamMap = None
   ∨ encodingParamMap = Some [] →
   setEncodingParameters encodingParamMap w = w)
  ∧ (∀ c camera m old,
       _localCameraTransceiver (ctl w) = Some c →
       transceivers (connection w) !! c = Some camera →
       direction camera = sendrecv →
       encodingParamMap = Some m → m ≠ [] →
       encodings (senderParameters camera) = Some old → old ≠ [] →
       ∃ new,
         setEncodingParameters encodingParamMap w
         = setTransceivers
             (<[c := withSenderParameters {| encodings := Some new |} camera]>
                (transceivers (connection w)))
             w
         ∧ layersPatched m.*2 old new).
Proof.
  split.
  - unfold setEncodingParameters.
    intros [-> | [(c & camera & -> & -> & Hdir) | [-> | ->]]]; [done| | |].
    + by rewrite decide_True.
    + destruct (_localCameraTransceiver (ctl w)) as [c|]; [|done].
      destruct (transceivers (connection w) !! c) as [camera|]; [|done].
      by destruct (decide (direction camera ≠ sendrecv)).
    + destruct (_localCameraTransceiver (ctl w)) as [c|]; [|done].
      destruct (transceivers (connection w) !! c) as [camera|]; [|done].
      by destruct (decide (direction camera ≠ sendrecv)).
  - intros c camera m old Hc Hcamera Hdir -> Hm Hold Hne.
    exists (patchLayer m.*2 <$> old). split; [|apply patchLayer_layersPatched].
    unfold setEncodingParameters. rewrite Hc, Hcamera.
    rewrite decide_False by (by intros []).
    rewrite bool_decide_eq_false_2 by (by destruct m).
    f_equal. unfold mergeParameters. rewrite Hold.
    rewrite bool_decide_eq_false_2 by (by destruct old).
    apply list_eq. intros j. destruct (decide (c = j)) as [<-|Hj].
    + rewrite list_lookup_alter_eq, list_lookup_insert_eq, Hcamera; [done|].
      by eapply lookup_lt_Some.
    + by rewrite list_lookup_alter_ne, list_lookup_insert_ne.
Qed.

(** ** The theorems at work on the scenarios *)

Lemma updateVideoTransceivers_complete_witness :
  (useTransceivers scenarioC' = true
   ∧ NoDup (array {| ids := [7%Z; 9%Z] |})
   ∧ 9%Z ∈ array {| ids := [7%Z; 9%Z] |}
   ∧ 9%Z ≠ 0%Z)
  ∧ count_occ Z.eq_dec
      (updateVideoTransceivers indexC' {| ids := [7%Z; 9%Z] |} scenarioC').2
      9%Z = 1.
Proof.
  assert (useTransceivers scenarioC' = true) as H1 by reflexivity.
  assert (NoDup (array {| ids := [7%Z; 9%Z] |})) as H2 by compute_done.
  assert (9%Z ∈ array {| ids := [7%Z; 9%Z] |}) as H3 by compute_done.
  assert (9%Z ≠ 0%Z) as H4 by lia.
  split; [done|].
  exact (proj1 (updateVideoTransceivers_complete indexC'
                  {| ids := [7%Z; 9%Z] |} scenarioC' 9%Z H1 H2 H3 H4)).
Defined.

Lemma updateVideoTransceivers_camera_sentinel_witness :
  useTransceivers scenarioB = true
  ∧ (updateVideoTransceivers indexB {| ids := [9%Z] |} scenarioB).2 !! 0
    = Some 0%Z.
Proof.
  split; [reflexivity|].
  apply (updateVideoTransceivers_camera_sentinel indexB {| ids := [9%Z] |}
           scenarioB).
  reflexivity.
Defined.

Lemma updateVideoTransceivers_passthrough_witness :
  peer (ctl (reset scenarioB)) = None
  ∧ updateVideoTransceivers indexB {| ids := [5%Z; 9%Z] |} (reset scenarioB)
    = (reset scenarioB, [5%Z; 9%Z]).
Proof.
  split; [reflexivity|].
  apply (updateVideoTransceivers_passthrough indexB {| ids := [5%Z; 9%Z] |}
           (reset scenarioB)).
  left. reflexivity.
Defined.

Lemma updateVideoTransceivers_rebind_witness :
  (useTransceivers scenarioC = true
   ∧ videoRefs (_localCameraTransceiver (ctl scenarioC))
       (transceivers (connection scenarioC)) !! 1 = Some 2
   ∧ transceivers (connection scenarioC) !! 2 = Some (videoSlot "2" recvonly)
   ∧ streamIdForTrack indexC' (trackId (videoSlot "2" recvonly)) = Some 5%Z
   ∧ streamIdToTransceiver (ctl scenarioC) !! 5%Z = Some 2
   ∧ StreamIdsInSameGroup indexC' 5%Z 7%Z = true
   ∧ earlierSlotsPass indexC' (transceivers (connection scenarioC))
       (videoRefs (_localCameraTransceiver (ctl scenarioC))
          (transceivers (connection scenarioC))) 1 7%Z)
  ∧ (updateVideoTransceivers indexC' {| ids := [7%Z] |} scenarioC).2
    !! 2 = Some 7%Z.
Proof.
  assert (earlierSlotsPass indexC' (transceivers (connection scenarioC))
            (videoRefs (_localCameraTransceiver (ctl scenarioC))
               (transceivers (connection scenarioC))) 1 7%Z) as Hpass.
  { intros q j u Hq Hj Hu. destruct q as [|q]; [|lia].
    injection Hj as <-. injection Hu as <-. by split. }
  split; [by split_and!|].
  exact (proj1 (proj2
    (updateVideoTransceivers_rebind indexC' scenarioC 1 2
       (videoSlot "2" recvonly) 5%Z 7%Z
       eq_refl eq_refl eq_refl eq_refl eq_refl eq_refl eq_refl Hpass))).
Defined.

Lemma scenarioA_camera_valid c :
  _localCameraTransceiver (ctl scenarioA) = Some c →
  c < length (transceivers (connection scenarioA)).
Proof. intros [= <-]. simpl. lia. Qed.

Lemma scenarioA_settled :
  firstCallSettled indexE {| ids := [5%Z; 9%Z] |} scenarioA.
Proof.
  split.
  - intros [|[|[|i]]] t t' Ht Ht' Hact; [| | |done];
      injection Ht as <-; by destruct Hact.
  - intros [|[|p]] i t' Hp Ht' _ _; [| |done];
      injection Hp as <-; injection Ht' as <-.
    + by exists 5%Z, 5%Z.
    + by exists 9%Z, 9%Z.
Qed.

Lemma updateVideoTransceivers_idempotent_witness :
  (useTransceivers scenarioA = true
   ∧ firstCallSettled indexE {| ids := [5%Z; 9%Z] |} scenarioA)
  ∧ (updateVideoTransceivers indexE {| ids := [5%Z; 9%Z] |} scenarioA).2
    = [0%Z; 5%Z; 9%Z]
  ∧ secondCallIdle indexE {| ids := [5%Z; 9%Z] |} scenarioA.
Proof.
  split; [split; [done|apply scenarioA_settled]|]. split; [done|].
  exact (updateVideoTransceivers_idempotent indexE {| ids := [5%Z; 9%Z] |}
           scenarioA eq_refl scenarioA_camera_valid scenarioA_settled).
Defined.

Lemma setEncodingParameters_witness :
  (_localCameraTransceiver (ctl sendingWorld) = Some 0
   ∧ transceivers (connection sendingWorld) !! 0 = Some sendingCamera
   ∧ direction sendingCamera = sendrecv
   ∧ lowPatch ≠ []
   ∧ ∃ old, encodings (senderParameters sendingCamera) = Some old ∧ old ≠ [])
  ∧ ∃ old new,
      encodings (senderParameters sendingCamera) = Some old
      ∧ setEncodingParameters (Some lowPatch) sendingWorld
        = setTransceivers
            (<[0 := withSenderParameters {| encodings := Some new |}
                      sendingCamera]>
               (transceivers (connection sendingWorld)))
            sendingWorld
      ∧ layersPatched lowPatch.*2 old new.
Proof.
  split.
  { repeat split; [done|]. eexists. by split. }
  destruct (proj2 (setEncodingParameters_spec (Some lowPatch) sendingWorld)
              0 sendingCamera lowPatch
              [ {[ "rid" := JsString "low"; "maxBitrate" := JsNumber 100 ]};
                {[ "rid" := JsString "hi"; "maxBitrate" := JsNumber 500 ]} ]
              eq_refl eq_refl eq_refl eq_refl)
    as (new & Hset & Hpatched); [done|reflexivity|done|].
  eexists _, new. split; [reflexivity|]. by split.
Defined.

(** * Further properties of the controller *)

(** ** What reconciliation leaves alone *)

Lemma createTransceivers_lookup todo r j :
  j < length (objs r) → objs (createTransceivers todo r) !! j = objs r !! j.
Proof.
  intros Hj. rewrite createTransceivers_objs. by apply lookup_app_l.
Qed.

Lemma updateVideoTransceivers_lookup_other vsi videosToReceive w j t :
  transceivers (connection w) !! j = Some t →
  j ∉ videoRefs (_localCameraTransceiver (ctl w)) (transceivers (connection w)) →
  transceivers (connection (updateVideoTransceivers vsi videosToReceive w).1)
    !! j = Some t.
Proof.
  intros Ht Hj. destruct (useTransceivers w) eqn:Huse; last first.
  { unfold updateVideoTransceivers. by rewrite Huse. }
  destruct (updateVideoTransceivers_result vsi videosToReceive w Huse)
    as (_ & -> & _).
  set (refs := videoRefs _ _) in *.
  set (start := {| objs := transceivers (connection w); subs := [0%Z];
                   bindings := streamIdToTransceiver (ctl w);
                   videosRemaining := array videosToReceive |}).
  pose proof (videoRefs_NoDup (_localCameraTransceiver (ctl w))
                (transceivers (connection w))) as Hnd.
  pose proof (videoRefs_valid (_localCameraTransceiver (ctl w))
                (transceivers (connection w))) as Hval.
  rewrite createTransceivers_lookup.
  - by rewrite (loopTransceivers_frame vsi refs 1 start j Hnd Hval eq_refl Hj).
  - rewrite (loopTransceivers_objs_length vsi refs 1 start Hnd Hval eq_refl).
    by eapply lookup_lt_Some.
Qed.

(** Reconciliation writes to the video slots only: a transceiver that is
    the local camera, or that carries no video track (the audio
    transceiver among them), is the same object after the call. *)
Theorem updateVideoTransceivers_frame vsi videosToReceive w j t :
  transceivers (connection w) !! j = Some t →
  _localCameraTransceiver (ctl w) = Some j ∨ transceiverIsVideo t = false →
  transceivers (connection (updateVideoTransceivers vsi videosToReceive w).1)
    !! j = Some t.
Proof.
  intros Ht Hj. apply updateVideoTransceivers_lookup_other; [done|].
  intros (t' & Ht' & Hcam & Hvideo)%videoRefs_elem_of.
  destruct Hj as [Hj|Hj]; [done|]. congruence.
Qed.

(** ** Only desired streams are recorded *)

(** A stream id stands in the returned array as often as in the array of
    the desired set: nothing but 0 is recorded that was not asked for. *)
Theorem updateVideoTransceivers_sound vsi videosToReceive w (s : Z) :
  useTransceivers w = true →
  s ≠ 0%Z →
  count_occ Z.eq_dec (updateVideoTransceivers vsi videosToReceive w).2 s
  = count_occ Z.eq_dec (array videosToReceive) s.
Proof.
  intros Huse Hs.
  destruct (updateVideoTransceivers_result vsi videosToReceive w Huse)
    as (-> & _).
  set (refs := videoRefs _ _).
  set (start := {| objs := transceivers (connection w); subs := [0%Z];
                   bindings := streamIdToTransceiver (ctl w);
                   videosRemaining := array videosToReceive |}).
  rewrite createTransceivers_subs, count_occ_app.
  rewrite (loopTransceivers_count vsi refs 1 start s
             (videoRefs_NoDup _ _) (videoRefs_valid _ _) eq_refl Hs).
  cbn [subs videosRemaining start]. rewrite count_occ_cons_decide.
  case_decide; [congruence|]. simpl. lia.
Qed.

(** ** No binding is invented *)

Lemma pick_subseteq (p : Z → bool) (l : list Z) y rest :
  pick p l = Some (y, rest) → y ∈ l ∧ rest ⊆ l.
Proof.
  intros (pre & suf & -> & -> & _)%pick_spec. split.
  - apply elem_of_app. right. by left.
  - intros x [Hx|Hx]%elem_of_app; apply elem_of_app; [by left|].
    right. by right.
Qed.

Lemma action_remaining_subseteq vsi i t r :
  videosRemaining (applyAction i (action vsi t (videosRemaining r)) r)
  ⊆ videosRemaining r.
Proof.
  rewrite applyAction_remaining. unfold action.
  destruct (decide (direction t ≠ inactive)).
  - destruct (streamIdForTrack vsi (trackId t)) as [sid|]; [|done].
    destruct (pick _ _) as [[y rest]|] eqn:Hpick.
    + by apply pick_subseteq in Hpick as [_ ?].
    + by destruct (videosRemaining r).
  - destruct (videosRemaining r); set_solver.
Qed.

Lemma loopTransceivers_remaining_subseteq vsi refs n r :
  NoDup refs → Forall (λ j, j < length (objs r)) refs → length (subs r) = n →
  videosRemaining (loopTransceivers vsi refs n r) ⊆ videosRemaining r.
Proof.
  revert refs n r.
  apply (loopTransceivers_ind vsi
           (λ _ _ r r', videosRemaining r' ⊆ videosRemaining r)); [done|].
  intros i refs n r t _ _ _ ra _ _ _ IH.
  etrans; [exact IH|]. apply action_remaining_subseteq.
Qed.

Lemma action_bindings vsi i t r (s : Z) :
  is_Some (bindings (applyAction i (action vsi t (videosRemaining r)) r) !! s) →
  is_Some (bindings r !! s) ∨ s ∈ videosRemaining r.
Proof.
  unfold action.
  destruct (decide (direction t ≠ inactive)).
  - destruct (streamIdForTrack vsi (trackId t)) as [sid|]; [|by left].
    destruct (pick _ _) as [[y rest]|] eqn:Hpick.
    + apply pick_subseteq in Hpick as [Hy _]. simpl.
      destruct (decide (y = s)) as [->|Hne]; [by right|].
      rewrite lookup_insert_ne by done. intros [v Hv]. left. exists v.
      by apply lookup_delete_Some in Hv as [_ Hv].
    + destruct (videosRemaining r); by left.
  - destruct (videosRemaining r) as [|y rest]; simpl.
    + intros [v Hv]. left. exists v.
      by apply map_lookup_filter_Some in Hv as [Hv _].
    + destruct (decide (y = s)) as [->|Hne]; [right; by left|].
      rewrite lookup_insert_ne by done. by left.
Qed.

Lemma loopTransceivers_bindings vsi refs n r (s : Z) :
  NoDup refs → Forall (λ j, j < length (objs r)) refs → length (subs r) = n →
  is_Some (bindings (loopTransceivers vsi refs n r) !! s) →
  is_Some (bindings r !! s) ∨ s ∈ videosRemaining r.
Proof.
  revert refs n r.
  apply (loopTransceivers_ind vsi
           (λ _ _ r r', is_Some (bindings r' !! s) →
                        is_Some (bindings r !! s) ∨ s ∈ videosRemaining r));
    [by left|].
  intros i refs n r t _ _ _ ra _ _ _ IH Hs.
  destruct (IH Hs) as [Hb|Hrem].
  - by apply (action_bindings vsi i t r s).
  - right. by apply (action_remaining_subseteq vsi i t r).
Qed.

Lemma createTransceivers_bindings_Some todo r (s : Z) :
  is_Some (bindings (createTransceivers todo r) !! s) →
  is_Some (bindings r !! s) ∨ s ∈ todo.
Proof.
  revert r. induction todo as [|x todo IH]; intros r; simpl; [by left|].
  intros [Hb|Hin]%IH; simpl in *.
  - destruct (decide (x = s)) as [->|Hne]; [right; by left|].
    rewrite lookup_insert_ne in Hb by done. by left.
  - right. by right.
Qed.

(** Every stream id bound in [streamIdToTransceiver] after the call was
    bound before it or is a member of the desired set. *)
Theorem updateVideoTransceivers_bindings vsi videosToReceive w (s : Z) :
  is_Some (streamIdToTransceiver
             (ctl (updateVideoTransceivers vsi videosToReceive w).1) !! s) →
  is_Some (streamIdToTransceiver (ctl w) !! s) ∨ s ∈ array videosToReceive.
Proof.
  destruct (useTransceivers w) eqn:Huse; last first.
  { unfold updateVideoTransceivers. rewrite Huse. by left. }
  destruct (updateVideoTransceivers_result vsi videosToReceive w Huse)
    as (_ & _ & ->).
  set (refs := videoRefs _ _).
  set (start := {| objs := transceivers (connection w); subs := [0%Z];
                   bindings := streamIdToTransceiver (ctl w);
                   videosRemaining := array videosToReceive |}).
  pose proof (videoRefs_NoDup (_localCameraTransceiver (ctl w))
                (transceivers (connection w))) as Hnd.
  pose proof (videoRefs_valid (_localCameraTransceiver (ctl w))
                (transceivers (connection w))) as Hval.
  intros [Hb|Hin]%createTransceivers_bindings_Some.
  - by apply (loopTransceivers_bindings vsi refs 1 start s Hnd Hval eq_refl).
  - right.
    by apply (loopTransceivers_remaining_subseteq vsi refs 1 start Hnd Hval
                eq_refl).
Qed.

(** ** Slots keep their positions *)

(** The enumeration of the video slots after a call is the enumeration
    before it, followed by the transceivers the call created: a slot keeps
    its position in every later subscription array, and the returned array
    has the camera position and one position per video slot. *)
Theorem updateVideoTransceivers_positions vsi videosToReceive w :
  useTransceivers w = true →
  (∀ c, _localCameraTransceiver (ctl w) = Some c →
        c < length (transceivers (connection w))) →
  let camera := _localCameraTransceiver (ctl w) in
  let ts := transceivers (connection w) in
  let out := updateVideoTransceivers vsi videosToReceive w in
  let ts' := transceivers (connection out.1) in
  videoRefs camera ts'
  = videoRefs camera ts ++ seq (length ts) (length ts' - length ts)
  ∧ length out.2 = S (length (videoRefs camera ts')).
Proof.
  intros Huse Hcam camera ts out ts'.
  destruct (updateVideoTransceivers_result vsi videosToReceive w Huse)
    as (Hres & Hobjs & _).
  fold out in Hres, Hobjs. fold ts' in Hobjs. fold camera ts in Hres, Hobjs.
  set (refs := videoRefs camera ts) in *.
  set (start := {| objs := ts; subs := [0%Z];
                   bindings := streamIdToTransceiver (ctl w);
                   videosRemaining := array videosToReceive |}) in *.
  set (r1 := loopTransceivers vsi refs 1 start) in *.
  pose proof (videoRefs_NoDup camera ts) as Hnd.
  pose proof (videoRefs_valid camera ts) as Hval.
  fold refs in Hnd, Hval.
  assert (length (objs r1) = length ts) as Hlen
    by apply (loopTransceivers_objs_length vsi refs 1 start Hnd Hval eq_refl).
  assert (videoRefs camera (objs r1) = refs) as Hrefs.
  { symmetry. apply videoRefs_ext.
    apply (loopTransceivers_sameSlot vsi refs 1 start Hnd Hval eq_refl). }
  rewrite createTransceivers_objs in Hobjs.
  assert (videoRefs camera ts'
          = refs ++ seq (length ts) (length (videosRemaining r1))) as Hafter.
  { rewrite Hobjs, videoRefs_app, Hrefs, Hlen. f_equal.
    by apply videoRefs_fresh. }
  split.
  - rewrite Hafter. do 2 f_equal.
    rewrite Hobjs, length_app, length_replicate. lia.
  - rewrite Hafter, Hres, createTransceivers_subs.
    destruct (loopTransceivers_subs vsi refs 1 start Hnd Hval eq_refl)
      as (rec & Hrec & Hlrec).
    fold r1 in Hrec. rewrite Hrec. cbn [subs start].
    rewrite !length_app, length_seq. simpl. lia.
Qed.

(** ** New transceivers and their bindings *)

Lemma createTransceivers_bindings_other todo r (s : Z) :
  s ∉ todo → bindings (createTransceivers todo r) !! s = bindings r !! s.
Proof.
  revert r. induction todo as [|x todo IH]; intros r Hs; simpl; [done|].
  apply not_elem_of_cons in Hs as [Hne Hs].
  rewrite IH by done. simpl. by rewrite lookup_insert_ne.
Qed.

Lemma createTransceivers_bindings_lookup todo r k (s : Z) :
  NoDup todo → todo !! k = Some s →
  bindings (createTransceivers todo r) !! s = Some (length (objs r) + k).
Proof.
  revert r k. induction todo as [|x todo IH]; intros r k Hnd Hk; [done|].
  apply NoDup_cons in Hnd as [Hx Hnd]. simpl.
  destruct k as [|k]; simpl in Hk.
  - injection Hk as ->. rewrite createTransceivers_bindings_other by done.
    simpl. by rewrite lookup_insert_eq, Nat.add_0_r.
  - rewrite (IH _ k Hnd Hk). simpl. rewrite length_app. simpl. f_equal. lia.
Qed.

Lemma action_remaining_NoDup vsi i t r :
  NoDup (videosRemaining r) →
  NoDup (videosRemaining (applyAction i (action vsi t (videosRemaining r)) r)).
Proof.
  intros Hnd. rewrite applyAction_remaining. unfold action.
  destruct (decide (direction t ≠ inactive)).
  - destruct (streamIdForTrack vsi (trackId t)) as [sid|]; [|done].
    destruct (pick _ _) as [[y rest]|] eqn:Hpick.
    + apply pick_Permutation in Hpick. rewrite Hpick in Hnd.
      by apply NoDup_cons in Hnd as [_ ?].
    + by destruct (videosRemaining r).
  - destruct (videosRemaining r) as [|y rest]; [done|].
    by apply NoDup_cons in Hnd as [_ ?].
Qed.

Lemma loopTransceivers_remaining_NoDup vsi refs n r :
  NoDup refs → Forall (λ j, j < length (objs r)) refs → length (subs r) = n →
  NoDup (videosRemaining r) →
  NoDup (videosRemaining (loopTransceivers vsi refs n r)).
Proof.
  revert refs n r.
  apply (loopTransceivers_ind vsi
           (λ _ _ r r', NoDup (videosRemaining r) →
                        NoDup (videosRemaining r'))); [done|].
  intros i refs n r t _ _ _ ra _ _ _ IH Hnd.
  by apply IH, action_remaining_NoDup.
Qed.

(** A stream id recorded behind the positions of the existing slots has a
    transceiver of its own: newly created as [recvonly], bound to the
    stream id in [streamIdToTransceiver], and with no [mid] yet, so that
    [getMidForStreamId] answers [null] for it. *)
Theorem updateVideoTransceivers_created_bound vsi videosToReceive w k (s : Z) :
  useTransceivers w = true →
  NoDup (array videosToReceive) →
  let ts := transceivers (connection w) in
  let refs := videoRefs (_localCameraTransceiver (ctl w)) ts in
  let out := updateVideoTransceivers vsi videosToReceive w in
  out.2 !! (S (length refs) + k) = Some s →
  streamIdToTransceiver (ctl out.1) !! s = Some (length ts + k)
  ∧ transceivers (connection out.1) !! (length ts + k)
    = Some (freshTransceiver video recvonly)
  ∧ getMidForStreamId out.1 s = Some None.
Proof.
  intros Huse HndD ts refs out Hs.
  destruct (updateVideoTransceivers_result vsi videosToReceive w Huse)
    as (Hres & Hobjs & Hmap).
  fold out in Hres, Hobjs, Hmap. fold ts refs in Hres, Hobjs, Hmap.
  set (start := {| objs := ts; subs := [0%Z];
                   bindings := streamIdToTransceiver (ctl w);
                   videosRemaining := array videosToReceive |}) in *.
  set (r1 := loopTransceivers vsi refs 1 start) in *.
  pose proof (videoRefs_NoDup (_localCameraTransceiver (ctl w)) ts) as Hnd.
  pose proof (videoRefs_valid (_localCameraTransceiver (ctl w)) ts) as Hval.
  fold refs in Hnd, Hval.
  assert (length (objs r1) = length ts) as Hlen
    by apply (loopTransceivers_objs_length vsi refs 1 start Hnd Hval eq_refl).
  destruct (loopTransceivers_subs vsi refs 1 start Hnd Hval eq_refl)
    as (rec & Hrec & Hlrec).
  fold r1 in Hrec. cbn [subs start] in Hrec.
  assert (videosRemaining r1 !! k = Some s) as Hk.
  { rewrite Hres, createTransceivers_subs, Hrec in Hs. simpl in Hs.
    rewrite lookup_app_r in Hs by lia.
    by replace (length refs + k - length rec) with k in Hs by lia. }
  assert (streamIdToTransceiver (ctl out.1) !! s = Some (length ts + k))
    as Hbound.
  { rewrite Hmap, <- Hlen. apply createTransceivers_bindings_lookup; [|done].
    by apply (loopTransceivers_remaining_NoDup vsi refs 1 start Hnd Hval
                eq_refl). }
  assert (transceivers (connection out.1) !! (length ts + k)
          = Some (freshTransceiver video recvonly)) as Hfresh.
  { rewrite Hobjs, createTransceivers_objs, lookup_app_r by lia.
    apply lookup_replicate_2. apply lookup_lt_Some in Hk. lia. }
  split; [done|]. split; [done|].
  unfold getMidForStreamId. by rewrite Hbound, Hfresh.
Qed.

(** ** Inactive slots are filled in order *)

Lemma loopTransceivers_fifo vsi refs n r :
  NoDup refs → Forall (λ j, j < length (objs r)) refs → length (subs r) = n →
  (∀ i t, i ∈ refs → objs r !! i = Some t → direction t = inactive) →
  subs (loopTransceivers vsi refs n r)
  = subs r ++ take (length refs) (videosRemaining r)
      ++ replicate (length refs - length (videosRemaining r)) 0%Z
  ∧ videosRemaining (loopTransceivers vsi refs n r)
    = drop (length refs) (videosRemaining r)
  ∧ ∀ q i, refs !! q = Some i →
           direction <$> objs (loopTransceivers vsi refs n r) !! i
           = Some (if decide (q < length (videosRemaining r))
                   then recvonly else inactive).
Proof.
  revert refs n r.
  apply (loopTransceivers_ind vsi
    (λ refs _ r r',
       (∀ i t, i ∈ refs → objs r !! i = Some t → direction t = inactive) →
       subs r' = subs r ++ take (length refs) (videosRemaining r)
                   ++ replicate (length refs - length (videosRemaining r)) 0%Z
       ∧ videosRemaining r' = drop (length refs) (videosRemaining r)
       ∧ ∀ q i, refs !! q = Some i →
                direction <$> objs r' !! i
                = Some (if decide (q < length (videosRemaining r))
                        then recvonly else inactive))).
  { intros _ r _. split; [|split].
    - simpl. by rewrite app_nil_r.
    - done.
    - intros q i Hq. by rewrite lookup_nil in Hq. }
  intros i refs n r t Ht Hn Hi ra Hnd Hval Hn' IH Hinactive.
  assert (direction t = inactive) as Hdir by (by apply (Hinactive i); [left|]).
  assert (ra = applyAction i
                 match videosRemaining r with
                 | y :: rest => Fill y rest
                 | [] => Release
                 end r) as Hra.
  { subst ra. unfold action. by rewrite decide_False by (by intros []). }
  destruct IH as (Hs & Hrem & Hdirs).
  { intros j u Hj Hu. apply (Hinactive j); [by right|].
    rewrite <- Hu. symmetry. subst ra. apply applyAction_objs_ne.
    by intros ->. }
  assert (objs (loopTransceivers vsi refs (S n) ra) !! i = objs ra !! i)
    as Hframe
    by apply (loopTransceivers_frame vsi refs (S n) ra i Hnd Hval Hn' Hi).
  rewrite Hs, Hrem. clear Hs Hrem. rewrite Hra in Hdirs, Hframe |- *.
  destruct (videosRemaining r) as [|y rest]; cbn [applyAction subs
    videosRemaining objs length] in *.
  - split; [|split].
    + rewrite !take_nil, !Nat.sub_0_r. simpl. by rewrite <- app_assoc.
    + by rewrite !drop_nil.
    + intros [|q] j Hq; simpl in Hq.
      * injection Hq as <-. rewrite Hframe, setDirection_lookup, Ht.
        by rewrite decide_False by lia.
      * rewrite (Hdirs q j Hq). by rewrite !decide_False by lia.
  - split; [|split].
    + simpl. by rewrite <- app_assoc.
    + done.
    + intros [|q] j Hq; simpl in Hq.
      * injection Hq as <-. rewrite Hframe, setDirection_lookup, Ht.
        by rewrite decide_True by lia.
      * rewrite (Hdirs q j Hq). do 2 case_decide; done || lia.
Qed.

(** With every video slot inactive, the slots take the desired stream ids
    in the order of the array, the first slot the first stream id: slots
    beyond the desired set record 0 and stay inactive, stream ids beyond
    the slots get new transceivers, and a transceiver is created only when
    the slots are used up. *)
Theorem updateVideoTransceivers_fifo vsi videosToReceive w :
  useTransceivers w = true →
  let ts := transceivers (connection w) in
  let refs := videoRefs (_localCameraTransceiver (ctl w)) ts in
  let out := updateVideoTransceivers vsi videosToReceive w in
  (∀ i t, i ∈ refs → ts !! i = Some t → direction t = inactive) →
  out.2 = 0%Z :: take (length refs) (array videosToReceive)
            ++ replicate (length refs - length (array videosToReceive)) 0%Z
            ++ drop (length refs) (array videosToReceive)
  ∧ length (transceivers (connection out.1))
    = length ts + (length (array videosToReceive) - length refs)
  ∧ ∀ q i, refs !! q = Some i →
           direction <$> transceivers (connection out.1) !! i
           = Some (if decide (q < length (array videosToReceive))
                   then recvonly else inactive).
Proof.
  intros Huse ts refs out Hinactive.
  destruct (updateVideoTransceivers_result vsi videosToReceive w Huse)
    as (Hres & Hobjs & _).
  fold out in Hres, Hobjs. fold ts refs in Hres, Hobjs.
  set (start := {| objs := ts; subs := [0%Z];
                   bindings := streamIdToTransceiver (ctl w);
                   videosRemaining := array videosToReceive |}) in *.
  pose proof (videoRefs_NoDup (_localCameraTransceiver (ctl w)) ts) as Hnd.
  pose proof (videoRefs_valid (_localCameraTransceiver (ctl w)) ts) as Hval.
  fold refs in Hnd, Hval.
  destruct (loopTransceivers_fifo vsi refs 1 start Hnd Hval eq_refl Hinactive)
    as (Hs & Hrem & Hdirs).
  pose proof (loopTransceivers_objs_length vsi refs 1 start Hnd Hval eq_refl)
    as Hlen.
  cbn [subs videosRemaining objs start] in Hs, Hrem, Hlen.
  rewrite Hres, Hobjs, createTransceivers_subs, createTransceivers_objs.
  rewrite Hs, Hrem. split; [|split].
  - simpl. by rewrite <- !app_assoc.
  - by rewrite length_app, length_replicate, Hlen, length_drop.
  - intros q i Hq. rewrite lookup_app_l.
    + by apply Hdirs.
    + rewrite Hlen. apply (Forall_lookup_1 _ _ _ _ Hval Hq).
Qed.

(** ** An empty desired set *)

Lemma loopTransceivers_release vsi refs n r :
  NoDup refs → Forall (λ j, j < length (objs r)) refs → length (subs r) = n →
  videosRemaining r = [] →
  ∀ i t, i ∈ refs → objs r !! i = Some t → direction t = inactive →
         ∀ s, bindings (loopTransceivers vsi refs n r) !! s ≠ Some i.
Proof.
  revert refs n r.
  apply (loopTransceivers_ind vsi
    (λ refs _ r r',
       videosRemaining r = [] →
       ∀ i t, i ∈ refs → objs r !! i = Some t → direction t = inactive →
              ∀ s, bindings r' !! s ≠ Some i)).
  { intros _ r _ i t Hi. by apply elem_of_nil in Hi. }
  intros i refs n r t Ht Hn Hi ra Hnd Hval Hn' IH Hrem j u Hj Hu Hdir s.
  assert (videosRemaining ra = []) as Hrem'.
  { subst ra. rewrite applyAction_remaining, Hrem. unfold action.
    destruct (decide (direction t ≠ inactive)); [|done].
    by destruct (streamIdForTrack vsi (trackId t)). }
  apply elem_of_cons in Hj as [->|Hj].
  - assert (u = t) as -> by congruence.
    destruct (loopTransceivers_idle vsi refs (S n) ra Hnd Hval Hn' Hrem')
      as (_ & _ & Hsub & _).
    intros Hs. apply Hsub in Hs. subst ra. unfold action in Hs.
    rewrite decide_False, Hrem in Hs by (by intros []). simpl in Hs.
    by apply map_lookup_filter_Some in Hs as [_ Hs].
  - apply (IH Hrem' j u); [done| |done].
    rewrite <- Hu. subst ra. apply applyAction_objs_ne. by intros ->.
Qed.

(** With an empty desired set the call subscribes to nothing: the array
    is all zeros, one per position, no transceiver is created, no binding
    is added, and no binding to an inactive video slot is left. *)
Theorem updateVideoTransceivers_empty vsi videosToReceive w :
  useTransceivers w = true →
  array videosToReceive = [] →
  let ts := transceivers (connection w) in
  let refs := videoRefs (_localCameraTransceiver (ctl w)) ts in
  let out := updateVideoTransceivers vsi videosToReceive w in
  out.2 = replicate (S (length refs)) 0%Z
  ∧ length (transceivers (connection out.1)) = length ts
  ∧ (∀ s i, streamIdToTransceiver (ctl out.1) !! s = Some i →
            streamIdToTransceiver (ctl w) !! s = Some i)
  ∧ (∀ i t, i ∈ refs → ts !! i = Some t → direction t = inactive →
            ∀ s, streamIdToTransceiver (ctl out.1) !! s ≠ Some i).
Proof.
  intros Huse Hempty ts refs out.
  destruct (updateVideoTransceivers_result vsi videosToReceive w Huse)
    as (Hres & Hobjs & Hmap).
  fold out in Hres, Hobjs, Hmap. fold ts refs in Hres, Hobjs, Hmap.
  rewrite Hempty in Hres, Hobjs, Hmap.
  set (start := {| objs := ts; subs := [0%Z];
                   bindings := streamIdToTransceiver (ctl w);
                   videosRemaining := [] |}) in *.
  pose proof (videoRefs_NoDup (_localCameraTransceiver (ctl w)) ts) as Hnd.
  pose proof (videoRefs_valid (_localCameraTransceiver (ctl w)) ts) as Hval.
  fold refs in Hnd, Hval.
  destruct (loopTransceivers_idle vsi refs 1 start Hnd Hval eq_refl eq_refl)
    as (Hrem & Hs & Hsub & _).
  rewrite Hrem in Hres, Hobjs, Hmap. simpl in Hres, Hobjs, Hmap.
  rewrite Hres, Hobjs, Hmap. split; [by rewrite Hs|]. split.
  { apply (loopTransceivers_objs_length vsi refs 1 start Hnd Hval eq_refl). }
  split; [exact Hsub|].
  apply (loopTransceivers_release vsi refs 1 start Hnd Hval eq_refl eq_refl).
Qed.

(** ** Reconciliation and the camera *)

Lemma applyAction_alter f c i a r :
  i ≠ c →
  applyAction i a (setObjs (alter f c (objs r)) r)
  = setObjs (alter f c (objs (applyAction i a r))) (applyAction i a r).
Proof.
  intros Hne.
  destruct a; unfold setObjs, setDirection; simpl; f_equal;
    by apply list_alter_alter_ne.
Qed.

(** The loop reads and writes the objects behind its references only: a
    change to another object commutes with it. *)
Lemma loopTransceivers_alter vsi f c refs n r :
  NoDup refs → Forall (λ j, j < length (objs r)) refs → length (subs r) = n →
  c ∉ refs →
  loopTransceivers vsi refs n (setObjs (alter f c (objs r)) r)
  = setObjs (alter f c (objs (loopTransceivers vsi refs n r)))
      (loopTransceivers vsi refs n r).
Proof.
  revert refs n r.
  apply (loopTransceivers_ind vsi
    (λ refs n r r',
       c ∉ refs →
       loopTransceivers vsi refs n (setObjs (alter f c (objs r)) r)
       = setObjs (alter f c (objs r')) r')); [done|].
  intros i refs n r t Ht Hn Hi ra Hnd Hval Hn' IH Hc.
  apply not_elem_of_cons in Hc as [Hne Hc].
  cbn [loopTransceivers].
  rewrite (stepTransceiver_action vsi i n _ t); [| |done]; last first.
  { simpl. by rewrite list_lookup_alter_ne. }
  rewrite <- (IH Hc). f_equal. subst ra.
  by apply applyAction_alter.
Qed.

Lemma createTransceivers_alter f c todo r :
  c < length (objs r) →
  createTransceivers todo (setObjs (alter f c (objs r)) r)
  = setObjs (alter f c (objs (createTransceivers todo r)))
      (createTransceivers todo r).
Proof.
  revert r. induction todo as [|x todo IH]; intros r Hc; [done|].
  simpl. rewrite length_alter.
  rewrite <- IH by (simpl; rewrite length_app; lia).
  f_equal. unfold setObjs. simpl. f_equal. by rewrite alter_app_l.
Qed.

Lemma videoRefs_alter_camera f c (ts : list RTCRtpTransceiver) :
  videoRefs (Some c) (alter f c ts) = videoRefs (Some c) ts.
Proof.
  unfold videoRefs.
  assert (∀ (l : list RTCRtpTransceiver) k j,
    (filter (λ it : nat * RTCRtpTransceiver,
               Some (k + j) ≠ Some it.1 ∧ transceiverIsVideo it.2 = true)
       (imap (λ i t, (k + i, t)) (alter f j l))).*1
    = (filter (λ it : nat * RTCRtpTransceiver,
                 Some (k + j) ≠ Some it.1 ∧ transceiverIsVideo it.2 = true)
         (imap (λ i t, (k + i, t)) l)).*1) as Hgen.
  { induction l as [|x l IH]; intros k j; [done|].
    destruct j as [|j]; cbn [alter list_alter]; rewrite !imap_cons.
    - rewrite !filter_cons_False by (simpl; intros [? _]; done). done.
    - rewrite (imap_ext _ (λ i t, (S k + i, t)) (alter f j l))
        by (intros; simpl; f_equal; lia).
      rewrite (imap_ext _ (λ i t, (S k + i, t)) l)
        by (intros; simpl; f_equal; lia).
      replace (k + S j) with (S k + j) by lia.
      rewrite !filter_cons.
      destruct (decide _); simpl; [f_equal|]; exact (IH (S k) j). }
  apply (Hgen ts 0 c).
Qed.

Lemma camera_not_videoRef c (ts : list RTCRtpTransceiver) :
  c ∉ videoRefs (Some c) ts.
Proof. by intros (t & _ & Hc & _)%videoRefs_elem_of. Qed.

(** A change to the camera object, made before the call or after it,
    gives the same world and the same array. *)
Lemma updateVideoTransceivers_alter_camera vsi videosToReceive w c f :
  _localCameraTransceiver (ctl w) = Some c →
  c < length (transceivers (connection w)) →
  let out := updateVideoTransceivers vsi videosToReceive w in
  updateVideoTransceivers vsi videosToReceive
    (setTransceivers (alter f c (transceivers (connection w))) w)
  = (setTransceivers (alter f c (transceivers (connection out.1))) out.1,
     out.2).
Proof.
  intros Hcam Hc out. subst out.
  destruct (useTransceivers w) eqn:Huse; last first.
  { unfold updateVideoTransceivers at 1.
    assert (useTransceivers
              (setTransceivers (alter f c (transceivers (connection w))) w)
            = false) as -> by done.
    unfold updateVideoTransceivers. by rewrite Huse. }
  assert (useTransceivers
            (setTransceivers (alter f c (transceivers (connection w))) w)
          = true) as Huse' by done.
  rewrite (updateVideoTransceivers_eq vsi videosToReceive _ Huse').
  rewrite (updateVideoTransceivers_eq vsi videosToReceive w Huse).
  cbn [setTransceivers ctl connection transceivers fst snd].
  rewrite Hcam, videoRefs_alter_camera.
  set (refs := videoRefs (Some c) (transceivers (connection w))).
  set (start := {| objs := transceivers (connection w); subs := [0%Z];
                   bindings := streamIdToTransceiver (ctl w);
                   videosRemaining := array videosToReceive |}).
  pose proof (videoRefs_NoDup (Some c) (transceivers (connection w))) as Hnd.
  pose proof (videoRefs_valid (Some c) (transceivers (connection w))) as Hval.
  fold refs in Hnd, Hval.
  pose proof (loopTransceivers_alter vsi f c refs 1 start Hnd Hval eq_refl
                (camera_not_videoRef c _)) as Hloop.
  unfold setObjs in Hloop. cbn [objs subs bindings videosRemaining start]
    in Hloop.
  rewrite Hloop. cbn [videosRemaining].
  set (r1 := loopTransceivers vsi refs 1 start).
  assert (c < length (objs r1)) as Hc1.
  { subst r1.
    by rewrite (loopTransceivers_objs_length vsi refs 1 start Hnd Hval
                  eq_refl). }
  pose proof (createTransceivers_alter f c (videosRemaining r1) r1 Hc1)
    as Hcreate.
  unfold setObjs in Hcreate. rewrite Hcreate. done.
Qed.

(** Attaching or detaching the camera track commutes with reconciliation:
    the subscription array, the bindings and every receive slot are the
    same whether [setVideoInput] runs before [updateVideoTransceivers] or
    after it. *)
Theorem updateVideoTransceivers_setVideoInput vsi videosToReceive withTrack w :
  (∀ c, _localCameraTransceiver (ctl w) = Some c →
        c < length (transceivers (connection w))) →
  let out := updateVideoTransceivers vsi videosToReceive w in
  updateVideoTransceivers vsi videosToReceive (setVideoInput withTrack w)
  = (setVideoInput withTrack out.1, out.2).
Proof.
  intros Hvalid out.
  assert (_localCameraTransceiver (ctl out.1)
          = _localCameraTransceiver (ctl w)) as Hcam'.
  { subst out. unfold updateVideoTransceivers.
    by destruct (negb (useTransceivers w)). }
  unfold setVideoInput, setTransceiverInput. rewrite Hcam'.
  destruct (_localCameraTransceiver (ctl w)) as [c|] eqn:Hcam.
  - by apply updateVideoTransceivers_alter_camera; [|apply Hvalid].
  - subst out. by destruct (updateVideoTransceivers vsi videosToReceive w).
Qed.

(** ** Local input *)

Lemma setTransceivers_same w :
  setTransceivers (transceivers (connection w)) w = w.
Proof. by destruct w as [? [? ?] ?]. Qed.

Lemma withSender_sender t : withSender (sender t) t = t.
Proof. by destruct t. Qed.

(** [hasVideoInput] after [setVideoInput]: with a camera transceiver it
    tells whether a track was given, and the call has changed nothing but
    the direction and the sender track of the camera transceiver; without
    one the call changes nothing and there is no video input. *)
Theorem setVideoInput_hasVideoInput withTrack w :
  (_localCameraTransceiver (ctl w) = None →
   setVideoInput withTrack w = w ∧ hasVideoInput w = false)
  ∧ (∀ c camera,
       _localCameraTransceiver (ctl w) = Some c →
       transceivers (connection w) !! c = Some camera →
       hasVideoInput (setVideoInput withTrack w) = bool_decide (is_Some withTrack)
       ∧ ctl (setVideoInput withTrack w) = ctl w
       ∧ transceivers (connection (setVideoInput withTrack w))
         = <[c := {| mid := mid camera;
                     direction := match withTrack with
                                  | Some _ => sendrecv
                                  | None => inactive
                                  end;
                     receiverTrack := receiverTrack camera;
                     senderTrack := withTrack;
                     senderParameters := senderParameters camera |}]>
             (transceivers (connection w))).
Proof.
  split.
  - intros Hcam. unfold setVideoInput, hasVideoInput, localVideoTransceiver.
    by rewrite Hcam.
  - intros c camera Hcam Hc.
    unfold setVideoInput, setTransceiverInput, hasVideoInput,
      localVideoTransceiver.
    rewrite Hcam. cbn [setTransceivers ctl connection transceivers
                         _localCameraTransceiver mbind option_bind].
    rewrite Hcam. simpl. rewrite list_lookup_alter_eq, Hc. simpl.
    split; [by destruct withTrack|]. split; [done|].
    apply list_eq. intros j. destruct (decide (c = j)) as [<-|Hne].
    + rewrite list_lookup_alter_eq, list_lookup_insert_eq, Hc; [done|].
      by eapply lookup_lt_Some.
    + by rewrite list_lookup_alter_ne, list_lookup_insert_ne.
Qed.

(** [replaceAudioTrack] answers [true] exactly when the audio transceiver
    exists and is [sendrecv]; then the track of its sender is the new one
    and nothing else has changed, otherwise nothing has changed at all. *)
Theorem replaceAudioTrack_spec withTrack w :
  ((replaceAudioTrack withTrack w).2 = true ↔
   ∃ t, localAudioTransceiver w = Some t ∧ direction t = sendrecv)
  ∧ ((replaceAudioTrack withTrack w).2 = false →
     (replaceAudioTrack withTrack w).1 = w)
  ∧ (∀ a t, _localAudioTransceiver (ctl w) = Some a →
            transceivers (connection w) !! a = Some t →
            direction t = sendrecv →
            (replaceAudioTrack withTrack w).1
            = setTransceivers
                (<[a := {| mid := mid t; direction := sendrecv;
                           receiverTrack := receiverTrack t;
                           senderTrack := withTrack;
                           senderParameters := senderParameters t |}]>
                   (transceivers (connection w)))
                w).
Proof.
  unfold replaceAudioTrack, localAudioTransceiver.
  destruct (_localAudioTransceiver (ctl w)) as [a|]; simpl; last first.
  { split; [|done]. split; [done|]. by intros (t & ? & _). }
  destruct (transceivers (connection w) !! a) as [t|] eqn:Ht; simpl;
    last first.
  { split; [|split; [done|]].
    - split; [done|]. by intros (t & ? & _).
    - intros a' t' [= <-] Ht'. congruence. }
  destruct (decide (direction t ≠ sendrecv)) as [Hdir|Hdir]; simpl.
  - split; [|split; [done|]].
    + split; [done|]. by intros (t' & [= <-] & ?).
    + intros a' t' [= <-] Ht' ?. rewrite Ht in Ht'. by injection Ht' as <-.
  - apply dec_stable in Hdir. split; [|split; [done|]].
    + split; [|done]. intros _. by exists t.
    + intros a' t' [= <-] Ht' _. rewrite Ht in Ht'. injection Ht' as <-.
      f_equal.
      apply list_eq. intros j. destruct (decide (a = j)) as [<-|Hne].
      * rewrite list_lookup_alter_eq, list_lookup_insert_eq, Ht;
          [|by eapply lookup_lt_Some].
        simpl. unfold withSender. simpl. by rewrite Hdir.
      * by rewrite list_lookup_alter_ne, list_lookup_insert_ne.
Qed.

(** After [setAudioInput], [replaceAudioTrack] succeeds exactly when a
    track was attached: detaching the microphone makes later replacements
    fail. *)
Theorem replaceAudioTrack_after_setAudioInput withTrack newTrack w a :
  _localAudioTransceiver (ctl w) = Some a →
  a < length (transceivers (connection w)) →
  (replaceAudioTrack newTrack (setAudioInput withTrack w)).2
  = bool_decide (is_Some withTrack).
Proof.
  intros Ha Hlt. destruct (lookup_lt_is_Some_2 _ _ Hlt) as [t Ht].
  unfold replaceAudioTrack, setAudioInput, setTransceiverInput.
  rewrite Ha. cbn [setTransceivers ctl connection transceivers
                     _localAudioTransceiver].
  rewrite Ha, list_lookup_alter_eq, Ht. simpl.
  by destruct withTrack.
Qed.

(** ** Setting up the local transceivers *)

Lemma setupLocalTransceivers_useTransceivers b w :
  useTransceivers (setupLocalTransceivers b w) = useTransceivers w.
Proof.
  unfold setupLocalTransceivers.
  destruct (useTransceivers w) eqn:Huse; simpl; [|done].
  destruct (_localAudioTransceiver (ctl w)), (_localCameraTransceiver (ctl w));
    unfold useTransceivers in *; simpl in *; done.
Qed.

(** With transceivers in use, [setupLocalTransceivers] leaves both local
    references set and pointing into the connection, keeps the ones that
    were set, appends what it creates (at most an audio and a video
    transceiver, both inactive) behind the existing transceivers, and
    touches neither the subscriptions nor the bindings. *)
Theorem setupLocalTransceivers_spec mediaStreamDefined w :
  useTransceivers w = true →
  validRefs w →
  let w' := setupLocalTransceivers mediaStreamDefined w in
  validRefs w'
  ∧ is_Some (localAudioTransceiver w')
  ∧ is_Some (localVideoTransceiver w')
  ∧ (∀ a, _localAudioTransceiver (ctl w) = Some a →
          _localAudioTransceiver (ctl w') = Some a)
  ∧ (∀ c, _localCameraTransceiver (ctl w) = Some c →
          _localCameraTransceiver (ctl w') = Some c)
  ∧ (∃ added,
       transceivers (connection w') = transceivers (connection w) ++ added
       ∧ length added ≤ 2
       ∧ Forall (λ t, direction t = inactive ∧ mid t = None) added)
  ∧ videoSubscriptions (ctl w') = videoSubscriptions (ctl w)
  ∧ streamIdToTransceiver (ctl w') = streamIdToTransceiver (ctl w).
Proof.
  intros Huse (Hcam & Haud & Hmap) w'. subst w'.
  unfold setupLocalTransceivers, validRefs, localAudioTransceiver,
    localVideoTransceiver.
  rewrite Huse. cbn [negb].
  destruct (_localAudioTransceiver (ctl w)) as [a|] eqn:Ha,
           (_localCameraTransceiver (ctl w)) as [c|] eqn:Hc;
    cbn [addTransceiver ctl connection transceivers _localCameraTransceiver
         _localAudioTransceiver streamIdToTransceiver videoSubscriptions
         mbind option_bind].
  - specialize (Hcam c eq_refl). specialize (Haud a eq_refl).
    split_and!; try done.
    + by intros ? [= <-].
    + by intros ? [= <-].
    + by apply lookup_lt_is_Some.
    + by apply lookup_lt_is_Some.
    + exists []. rewrite app_nil_r. split; [done|].
      split; [simpl; lia|constructor].
  - specialize (Haud a eq_refl).
    split_and!; try done.
    + intros ? [= <-]. rewrite length_app. simpl. lia.
    + intros ? [= <-]. rewrite length_app. simpl. lia.
    + intros s i Hs. apply Hmap in Hs. rewrite length_app. simpl. lia.
    + apply lookup_lt_is_Some. rewrite length_app. simpl. lia.
    + apply lookup_lt_is_Some. rewrite length_app. simpl. lia.
    + eexists. split; [done|]. split; [simpl; lia|]. by repeat constructor.
  - specialize (Hcam c eq_refl).
    split_and!; try done.
    + intros ? [= <-]. rewrite length_app. simpl. lia.
    + intros ? [= <-]. rewrite length_app. simpl. lia.
    + intros s i Hs. apply Hmap in Hs. rewrite length_app. simpl. lia.
    + apply lookup_lt_is_Some. rewrite length_app. simpl. lia.
    + apply lookup_lt_is_Some. rewrite length_app. simpl. lia.
    + eexists. split; [done|]. split; [simpl; lia|]. by repeat constructor.
  - split_and!; try done.
    + intros ? [= <-]. rewrite !length_app. simpl. lia.
    + intros ? [= <-]. rewrite !length_app. simpl. lia.
    + intros s i Hs. apply Hmap in Hs. rewrite !length_app. simpl. lia.
    + apply lookup_lt_is_Some. rewrite !length_app. simpl. lia.
    + apply lookup_lt_is_Some. rewrite !length_app. simpl. lia.
    + exists [freshTransceiver audio inactive; freshTransceiver video inactive].
      split; [by rewrite <- app_assoc|]. split; [simpl; lia|].
      by repeat constructor.
Qed.

(** Setting up twice is setting up once. *)
Theorem setupLocalTransceivers_idempotent mediaStreamDefined w :
  setupLocalTransceivers mediaStreamDefined
    (setupLocalTransceivers mediaStreamDefined w)
  = setupLocalTransceivers mediaStreamDefined w.
Proof.
  unfold setupLocalTransceivers at 1.
  rewrite setupLocalTransceivers_useTransceivers.
  destruct (useTransceivers w) eqn:Huse; [|done]. cbn [negb].
  unfold setupLocalTransceivers. rewrite Huse. cbn [negb].
  destruct (_localAudioTransceiver (ctl w)), (_localCameraTransceiver (ctl w)),
    (defaultMediaStream (ctl w)) as [[]|], mediaStreamDefined; done.
Qed.

(** On a new connection: after [setupLocalTransceivers] the first call of
    [updateVideoTransceivers] returns 0 followed by the desired stream ids
    in order, creates one [recvonly] transceiver per stream id behind the
    audio and the camera transceiver, and leaves those two inactive. *)
Theorem setup_then_updateVideoTransceivers vsi videosToReceive b w :
  useTransceivers w = true →
  transceivers (connection w) = [] →
  _localAudioTransceiver (ctl w) = None →
  _localCameraTransceiver (ctl w) = None →
  let out := updateVideoTransceivers vsi videosToReceive
               (setupLocalTransceivers b w) in
  out.2 = 0%Z :: array videosToReceive
  ∧ transceivers (connection out.1)
    = [freshTransceiver audio inactive; freshTransceiver video inactive]
      ++ replicate (length (array videosToReceive))
           (freshTransceiver video recvonly)
  ∧ hasVideoInput out.1 = false.
Proof.
  intros Huse Hts Ha Hc out. subst out.
  assert (useTransceivers (setupLocalTransceivers b w) = true) as Huse'
    by (by rewrite setupLocalTransceivers_useTransceivers).
  rewrite (updateVideoTransceivers_eq vsi videosToReceive _ Huse').
  unfold setupLocalTransceivers. rewrite Huse, Ha, Hc, Hts.
  cbn [negb addTransceiver app length commit ctl connection transceivers
       _localCameraTransceiver streamIdToTransceiver fst snd].
  assert (videoRefs (Some 1)
            [freshTransceiver audio inactive; freshTransceiver video inactive]
          = []) as -> by done.
  cbn [loopTransceivers videosRemaining].
  rewrite createTransceivers_subs, createTransceivers_objs.
  split; [done|]. split; [done|].
  unfold hasVideoInput, localVideoTransceiver. simpl.
  by rewrite createTransceivers_objs.
Qed.

(** ** The sending bitrate *)

(** A positive bitrate passes the guard [bitrateKbps <= 0] of line 67;
    so does [NaN]. *)
Lemma positive_passes_guard (x : float) :
  (0 <? x)%float = true → (x <=? 0)%float = false.
Proof.
  rewrite ltb_spec, leb_spec.
  unfold SpecFloat.SFltb, SpecFloat.SFleb, SpecFloat.SFcompare.
  change (FloatOps.Prim2SF 0) with (SpecFloat.S754_zero false).
  by destruct (FloatOps.Prim2SF x) as [[]|[]| |[] m e].
Qed.

Lemma setVideoSendingBitrateKbps_nonpositive bitrateKbps w :
  (bitrateKbps <=? 0)%float = true →
  setVideoSendingBitrateKbps bitrateKbps w = w.
Proof.
  intros Hb. unfold setVideoSendingBitrateKbps.
  destruct (_localCameraTransceiver (ctl w)) as [c|]; [|done].
  destruct (transceivers (connection w) !! c) as [camera|] eqn:Hc; [|done].
  destruct (decide (direction camera ≠ sendrecv)); [done|].
  unfold setVideoSendingBitrateKbpsForSender.
  rewrite Hb.
  transitivity (setTransceivers (transceivers (connection w)) w);
    [|apply setTransceivers_same].
  f_equal.
  apply list_eq. intros j. destruct (decide (c = j)) as [<-|Hne].
  - rewrite list_lookup_alter_eq, Hc. simpl. by rewrite withSender_sender.
  - by rewrite list_lookup_alter_ne.
Qed.

(** [setVideoSendingBitrateKbps] does nothing without a camera
    transceiver, with a camera that is not [sendrecv], and for a bitrate
    that is not positive ([bitrateKbps <= 0]). *)
Theorem setVideoSendingBitrateKbps_noop bitrateKbps w :
  _localCameraTransceiver (ctl w) = None
  ∨ (∃ c camera, _localCameraTransceiver (ctl w) = Some c
                 ∧ transceivers (connection w) !! c = Some camera
                 ∧ direction camera ≠ sendrecv)
  ∨ (bitrateKbps <=? 0)%float = true →
  setVideoSendingBitrateKbps bitrateKbps w = w.
Proof.
  intros [Hcam | [(c & camera & Hcam & Hc & Hdir) | Hb]].
  - unfold setVideoSendingBitrateKbps. by rewrite Hcam.
  - unfold setVideoSendingBitrateKbps. by rewrite Hcam, Hc, decide_True.
  - by apply setVideoSendingBitrateKbps_nonpositive.
Qed.

(** With a [sendrecv] camera and a bitrate for which [bitrateKbps <= 0]
    is false (every positive bitrate, lemma [positive_passes_guard]),
    every encoding layer of the camera sender gets as [maxBitrate] the
    double [bitrateKbps * 1000] and keeps its other fields; the layers
    stay the same in number (none is added to an empty array), a sender
    without [encodings] gets one layer holding the bitrate only, and
    nothing else in the world changes. *)
Theorem setVideoSendingBitrateKbps_spec bitrateKbps w c camera :
  _localCameraTransceiver (ctl w) = Some c →
  transceivers (connection w) !! c = Some camera →
  direction camera = sendrecv →
  (bitrateKbps <=? 0)%float = false →
  ∃ new,
    setVideoSendingBitrateKbps bitrateKbps w
    = setTransceivers
        (<[c := withSenderParameters {| encodings := Some new |} camera]>
           (transceivers (connection w)))
        w
    ∧ (∀ layer, layer ∈ new →
                layer !! "maxBitrate" = Some (JsNumber (bitrateKbps * 1000)))
    ∧ match encodings (senderParameters camera) with
      | None => new = [ {[ "maxBitrate" := JsNumber (bitrateKbps * 1000) ]} ]
      | Some old =>
          length new = length old
          ∧ ∀ k before after key,
              old !! k = Some before → new !! k = Some after →
              key ≠ "maxBitrate" → after !! key = before !! key
      end.
Proof.
  intros Hcam Hc Hdir Hb.
  set (stamp := λ encodeParam : gmap string JsValue,
         <["maxBitrate" := JsNumber (bitrateKbps * 1000)]> encodeParam).
  exists (stamp <$> match encodings (senderParameters camera) with
                    | None => [∅]
                    | Some e => e
                    end).
  split; [|split].
  - unfold setVideoSendingBitrateKbps. rewrite Hcam, Hc.
    rewrite decide_False by (by intros []).
    unfold setVideoSendingBitrateKbpsForSender.
    rewrite Hb.
    f_equal. apply list_eq. intros j. destruct (decide (c = j)) as [<-|Hne].
    + rewrite list_lookup_alter_eq, list_lookup_insert_eq, Hc;
        [|by eapply lookup_lt_Some].
      by destruct camera.
    + by rewrite list_lookup_alter_ne, list_lookup_insert_ne.
  - intros layer (e & -> & _)%list_elem_of_fmap. apply lookup_insert_eq.
  - destruct (encodings (senderParameters camera)) as [old|]; [|done].
    split; [by rewrite length_fmap|].
    intros k before after key Hk Hk' Hkey.
    rewrite list_lookup_fmap, Hk in Hk'. injection Hk' as <-.
    by apply lookup_insert_ne.
Qed.

(** The last bitrate wins: setting a bitrate that passes the guard (a
    positive one, lemma [positive_passes_guard]) after any other gives
    the world that setting it alone gives. *)
Theorem setVideoSendingBitrateKbps_last b1 b2 w :
  (b2 <=? 0)%float = false →
  setVideoSendingBitrateKbps b2 (setVideoSendingBitrateKbps b1 w)
  = setVideoSendingBitrateKbps b2 w.
Proof.
  intros Hb2.
  destruct (b1 <=? 0)%float eqn:Hb1.
  { by rewrite (setVideoSendingBitrateKbps_nonpositive b1 w). }
  unfold setVideoSendingBitrateKbps.
  destruct (_localCameraTransceiver (ctl w)) as [c|] eqn:Hcam;
    [|by rewrite Hcam].
  destruct (transceivers (connection w) !! c) as [camera|] eqn:Hc;
    [|by rewrite Hcam, Hc].
  destruct (decide (direction camera ≠ sendrecv)) as [Hdir|Hdir];
    [by rewrite Hcam, Hc, decide_True|].
  unfold setVideoSendingBitrateKbpsForSender.
  rewrite Hb2, Hb1.
  cbn [setTransceivers ctl connection transceivers _localCameraTransceiver].
  rewrite Hcam, list_lookup_alter_eq, Hc. cbn [fmap option_fmap option_map].
  rewrite decide_False by done.
  unfold setTransceivers. cbn [ctl connection transceivers
    getTransceiversDefined requiresUnifiedPlan]. do 2 f_equal.
  rewrite list_alter_alter_eq. apply list_alter_ext; [|done].
  intros t Ht. assert (t = camera) as -> by congruence.
  unfold withSender, sender, setParameters. simpl. do 3 f_equal.
  rewrite <- list_fmap_compose. apply list_fmap_ext.
  intros _ e _. simpl. apply insert_insert_eq.
Qed.

(** The bitrate is a double, and so is the product: a fraction of a
    kilobit counts, a product that has no double of its own is rounded,
    [NaN] passes the guard and is stored, and a negative bitrate is
    ignored. *)
Example setVideoSendingBitrateKbpsForSender_doubles :
  let s := {| track := Some video;
              getParameters := {| encodings := Some [ ∅ ] |} |} in
  let stored b :=
    getParameters <$> setVideoSendingBitrateKbpsForSender (Some s) b in
  let layer x := Some {| encodings := Some [ {[ "maxBitrate" := JsNumber x ]} ] |} in
  stored 0.5%float = layer 500%float
  ∧ stored 9007199254740991%float = layer 9007199254740990976%float
  ∧ stored nan = layer nan
  ∧ stored (-1)%float = Some (getParameters s).
Proof. repeat split. Qed.

(** ** Stream ids and mids *)

Lemma rebindFirst_no_match ts m new (es : list (Z * nat)) b :
  Forall (λ kv, mid <$> ts !! kv.2 ≠ Some (Some m)) es →
  rebindFirst ts m new es b = b.
Proof.
  induction 1 as [|[s i] es Hne _ IH]; [done|].
  simpl in *. by rewrite bool_decide_eq_false_2.
Qed.

(** The first entry with the mid, and what the loop does with it. *)
Lemma rebindFirst_match ts m new (es : list (Z * nat)) b :
  Exists (λ kv, mid <$> ts !! kv.2 = Some (Some m)) es →
  ∃ s i, (s, i) ∈ es ∧ mid <$> ts !! i = Some (Some m)
         ∧ rebindFirst ts m new es b = <[new := i]> (delete s b).
Proof.
  induction es as [|[s i] es IH]; intros Hex; [by apply Exists_nil in Hex|].
  simpl. destruct (decide (mid <$> ts !! i = Some (Some m))) as [Hm|Hm].
  - rewrite bool_decide_eq_true_2 by done. exists s, i.
    split; [by left|done].
  - rewrite bool_decide_eq_false_2 by done.
    apply Exists_cons in Hex as [Hex|Hex]; [done|].
    destruct (IH Hex) as (s' & i' & Hin & Hm' & Heq).
    exists s', i'. split; [by right|done].
Qed.

(** [setStreamIdForMid] changes nothing when no bound transceiver has the
    mid. *)
Theorem setStreamIdForMid_no_match entriesInOrder m newStreamId w :
  entriesInOrder ≡ₚ map_to_list (streamIdToTransceiver (ctl w)) →
  (∀ s i, streamIdToTransceiver (ctl w) !! s = Some i →
          mid <$> transceivers (connection w) !! i ≠ Some (Some m)) →
  setStreamIdForMid entriesInOrder m newStreamId w = w.
Proof.
  intros Hperm Hnone. unfold setStreamIdForMid.
  rewrite rebindFirst_no_match; [by destruct w as [[] ? ?]|].
  apply Forall_forall. intros [s i] Hin. simpl.
  apply Hnone with s. apply elem_of_map_to_list. by rewrite <- Hperm.
Qed.

(** When some bound transceiver has the mid, [getMidForStreamId] of the
    new stream id answers that mid after [setStreamIdForMid], whatever
    the order of the entries. *)
Theorem setStreamIdForMid_getMidForStreamId entriesInOrder m newStreamId w
    (s : Z) i :
  entriesInOrder ≡ₚ map_to_list (streamIdToTransceiver (ctl w)) →
  streamIdToTransceiver (ctl w) !! s = Some i →
  mid <$> transceivers (connection w) !! i = Some (Some m) →
  getMidForStreamId (setStreamIdForMid entriesInOrder m newStreamId w)
    newStreamId
  = Some (Some m).
Proof.
  intros Hperm Hs Hm.
  destruct (rebindFirst_match (transceivers (connection w)) m newStreamId
              entriesInOrder (streamIdToTransceiver (ctl w)))
    as (s' & i' & _ & Hm' & Heq).
  { apply Exists_exists. exists (s, i). split; [|done].
    rewrite Hperm. by apply elem_of_map_to_list. }
  unfold getMidForStreamId, setStreamIdForMid. simpl.
  by rewrite Heq, lookup_insert_eq.
Qed.

(** When exactly one stream id is bound to a transceiver with the mid,
    [setStreamIdForMid] moves that binding to the new stream id: the old
    stream id is unbound, the new one is bound to the same transceiver
    (replacing what it was bound to), and no other binding changes. *)
Theorem setStreamIdForMid_unique entriesInOrder m newStreamId w (s : Z) i :
  entriesInOrder ≡ₚ map_to_list (streamIdToTransceiver (ctl w)) →
  streamIdToTransceiver (ctl w) !! s = Some i →
  mid <$> transceivers (connection w) !! i = Some (Some m) →
  (∀ s' i', streamIdToTransceiver (ctl w) !! s' = Some i' →
            mid <$> transceivers (connection w) !! i' = Some (Some m) →
            s' = s) →
  streamIdToTransceiver (ctl (setStreamIdForMid entriesInOrder m newStreamId w))
  = <[newStreamId := i]> (delete s (streamIdToTransceiver (ctl w))).
Proof.
  intros Hperm Hs Hm Huniq.
  destruct (rebindFirst_match (transceivers (connection w)) m newStreamId
              entriesInOrder (streamIdToTransceiver (ctl w)))
    as (s' & i' & Hin & Hm' & Heq).
  { apply Exists_exists. exists (s, i). split; [|done].
    rewrite Hperm. by apply elem_of_map_to_list. }
  rewrite Hperm in Hin. apply elem_of_map_to_list in Hin.
  assert (s' = s) as -> by (by apply (Huniq s' i')).
  assert (i' = i) as -> by congruence.
  unfold setStreamIdForMid. simpl. exact Heq.
Qed.

(** ** After [reset] *)

(** Once reset, the controller is inert until a peer is set: local input
    and sender settings are ignored, there is no video input, setting up
    the local transceivers does nothing, replacing the audio track fails,
    and [updateVideoTransceivers] hands back the desired set.  [setPeer]
    brings the transceivers back into use when the browser requires
    unified plan and the connection has [getTransceivers]. *)
Theorem reset_inert vsi videosToReceive withTrack encodingParamMap
    bitrateKbps mediaStreamDefined w :
  let w0 := reset w in
  updateVideoTransceivers vsi videosToReceive w0 = (w0, array videosToReceive)
  ∧ setupLocalTransceivers mediaStreamDefined w0 = w0
  ∧ setVideoInput withTrack w0 = w0
  ∧ setAudioInput withTrack w0 = w0
  ∧ hasVideoInput w0 = false
  ∧ replaceAudioTrack withTrack w0 = (w0, false)
  ∧ setEncodingParameters encodingParamMap w0 = w0
  ∧ setVideoSendingBitrateKbps bitrateKbps w0 = w0
  ∧ useTransceivers (setPeer w0)
    = requiresUnifiedPlan w && getTransceiversDefined (connection w).
Proof.
  repeat split; try done.
  unfold useTransceivers. simpl. by destruct (requiresUnifiedPlan w).
Qed.

(** ** Encoding parameters of a sender without layers *)

(** When the camera sender has no encodings, or an empty array of them,
    [setEncodingParameters] installs the layers of the patch as they are,
    in map order, [rid] and [codecPayloadType] included. *)
Theorem setEncodingParameters_install m w c camera :
  _localCameraTransceiver (ctl w) = Some c →
  transceivers (connection w) !! c = Some camera →
  direction camera = sendrecv →
  m ≠ [] →
  encodings (senderParameters camera) = None
  ∨ encodings (senderParameters camera) = Some [] →
  setEncodingParameters (Some m) w
  = setTransceivers
      (<[c := withSenderParameters {| encodings := Some m.*2 |} camera]>
         (transceivers (connection w)))
      w.
Proof.
  intros Hcam Hc Hdir Hm Hnone.
  unfold setEncodingParameters. rewrite Hcam, Hc.
  rewrite decide_False by (by intros []).
  rewrite bool_decide_eq_false_2 by (by destruct m).
  f_equal. apply list_eq. intros j. destruct (decide (c = j)) as [<-|Hne].
  - rewrite list_lookup_alter_eq, list_lookup_insert_eq, Hc;
      [|by eapply lookup_lt_Some].
    simpl. do 2 f_equal. unfold mergeParameters.
    by destruct Hnone as [-> | ->].
  - by rewrite list_lookup_alter_ne, list_lookup_insert_ne.
Qed.

(** ** Reconciliation and the sender settings *)

Lemma updateVideoTransceivers_camera vsi videosToReceive w :
  _localCameraTransceiver (ctl (updateVideoTransceivers vsi videosToReceive w).1)
  = _localCameraTransceiver (ctl w).
Proof.
  unfold updateVideoTransceivers. by destruct (negb (useTransceivers w)).
Qed.

Lemma updateVideoTransceivers_pair vsi videosToReceive w :
  updateVideoTransceivers vsi videosToReceive w
  = ((updateVideoTransceivers vsi videosToReceive w).1,
     (updateVideoTransceivers vsi videosToReceive w).2).
Proof. by destruct (updateVideoTransceivers vsi videosToReceive w). Qed.

(** The encoding parameters and the sending bitrate of the camera can be
    set before reconciliation or after it, with the same outcome:
    [updateVideoTransceivers] neither reads nor writes them. *)
Theorem updateVideoTransceivers_sender_settings vsi videosToReceive
    encodingParamMap bitrateKbps w :
  (∀ c, _localCameraTransceiver (ctl w) = Some c →
        c < length (transceivers (connection w))) →
  let out := updateVideoTransceivers vsi videosToReceive w in
  updateVideoTransceivers vsi videosToReceive
    (setEncodingParameters encodingParamMap w)
  = (setEncodingParameters encodingParamMap out.1, out.2)
  ∧ updateVideoTransceivers vsi videosToReceive
      (setVideoSendingBitrateKbps bitrateKbps w)
    = (setVideoSendingBitrateKbps bitrateKbps out.1, out.2).
Proof.
  intros Hvalid out. subst out.
  pose proof (updateVideoTransceivers_camera vsi videosToReceive w) as Hcam'.
  unfold setEncodingParameters, setVideoSendingBitrateKbps. rewrite Hcam'.
  destruct (_localCameraTransceiver (ctl w)) as [c|] eqn:Hcam;
    [|split; apply updateVideoTransceivers_pair].
  specialize (Hvalid c eq_refl).
  destruct (lookup_lt_is_Some_2 _ _ Hvalid) as [camera Hc].
  rewrite (updateVideoTransceivers_lookup_other vsi videosToReceive w c camera
             Hc)
    by (rewrite Hcam; apply camera_not_videoRef).
  rewrite Hc.
  destruct (decide (direction camera ≠ sendrecv));
    [split; apply updateVideoTransceivers_pair|].
  split.
  - destruct encodingParamMap as [m|]; [|apply updateVideoTransceivers_pair].
    destruct (bool_decide (length m = 0));
      [apply updateVideoTransceivers_pair|].
    by apply updateVideoTransceivers_alter_camera.
  - destruct (setVideoSendingBitrateKbpsForSender _ _);
      [|apply updateVideoTransceivers_pair].
    by apply updateVideoTransceivers_alter_camera.
Qed.

(** ** The further properties at work on the scenarios *)

Lemma updateVideoTransceivers_frame_witness :
  (transceivers (connection scenarioB) !! 0 = Some (videoSlot "0" inactive)
   ∧ _localCameraTransceiver (ctl scenarioB) = Some 0)
  ∧ transceivers
      (connection (updateVideoTransceivers indexB {| ids := [9%Z] |}
                     scenarioB).1) !! 0
    = Some (videoSlot "0" inactive).
Proof.
  split; [by split|].
  exact (updateVideoTransceivers_frame indexB {| ids := [9%Z] |} scenarioB 0
           (videoSlot "0" inactive) eq_refl (or_introl eq_refl)).
Defined.

Lemma updateVideoTransceivers_sound_witness :
  (useTransceivers scenarioB = true ∧ 5%Z ≠ 0%Z)
  ∧ count_occ Z.eq_dec
      (updateVideoTransceivers indexB {| ids := [9%Z] |} scenarioB).2 5%Z
    = count_occ Z.eq_dec (array {| ids := [9%Z] |}) 5%Z.
Proof.
  assert (5%Z ≠ 0%Z) as H5 by lia.
  split; [by split|].
  exact (updateVideoTransceivers_sound indexB {| ids := [9%Z] |} scenarioB
           5%Z eq_refl H5).
Defined.

Lemma updateVideoTransceivers_bindings_witness :
  is_Some (streamIdToTransceiver
             (ctl (updateVideoTransceivers indexB {| ids := [9%Z] |}
                     scenarioB).1) !! 9%Z)
  ∧ (is_Some (streamIdToTransceiver (ctl scenarioB) !! 9%Z)
     ∨ 9%Z ∈ array {| ids := [9%Z] |}).
Proof.
  assert (is_Some (streamIdToTransceiver
                     (ctl (updateVideoTransceivers indexB {| ids := [9%Z] |}
                             scenarioB).1) !! 9%Z)) as Hsome
    by (by eexists).
  split; [done|].
  exact (updateVideoTransceivers_bindings indexB {| ids := [9%Z] |} scenarioB
           9%Z Hsome).
Defined.

Lemma scenarioB_camera_valid c :
  _localCameraTransceiver (ctl scenarioB) = Some c →
  c < length (transceivers (connection scenarioB)).
Proof. intros [= <-]. simpl. lia. Qed.

Lemma sendingWorld_camera_valid c :
  _localCameraTransceiver (ctl sendingWorld) = Some c →
  c < length (transceivers (connection sendingWorld)).
Proof. intros [= <-]. simpl. lia. Qed.

Lemma updateVideoTransceivers_positions_witness :
  useTransceivers scenarioB = true
  ∧ videoRefs (_localCameraTransceiver (ctl scenarioB))
      (transceivers
         (connection (updateVideoTransceivers indexB {| ids := [9%Z] |}
                        scenarioB).1))
    = [1; 2].
Proof.
  split; [done|].
  exact (proj1 (updateVideoTransceivers_positions indexB {| ids := [9%Z] |}
                  scenarioB eq_refl
                  scenarioB_camera_valid)).
Defined.

Lemma updateVideoTransceivers_created_bound_witness :
  (useTransceivers scenarioB = true
   ∧ NoDup (array {| ids := [9%Z] |})
   ∧ (updateVideoTransceivers indexB {| ids := [9%Z] |} scenarioB).2 !! 2
     = Some 9%Z)
  ∧ getMidForStreamId
      (updateVideoTransceivers indexB {| ids := [9%Z] |} scenarioB).1 9%Z
    = Some None.
Proof.
  assert (NoDup (array {| ids := [9%Z] |})) as Hnd by compute_done.
  split; [by split_and!|].
  exact (proj2 (proj2
    (updateVideoTransceivers_created_bound indexB {| ids := [9%Z] |}
       scenarioB 0 9%Z eq_refl Hnd eq_refl))).
Defined.

Lemma scenarioA_inactive i t :
  i ∈ videoRefs (_localCameraTransceiver (ctl scenarioA))
        (transceivers (connection scenarioA)) →
  transceivers (connection scenarioA) !! i = Some t →
  direction t = inactive.
Proof.
  intros _ Ht. destruct i as [|[|[|i]]]; simpl in Ht; [| | |done];
    by injection Ht as <-.
Qed.

Lemma updateVideoTransceivers_fifo_witness :
  useTransceivers scenarioA = true
  ∧ (updateVideoTransceivers (indexOf [] ownGroup)
       {| ids := [5%Z; 9%Z; 3%Z] |} scenarioA).2
    = [0%Z; 5%Z; 9%Z; 3%Z].
Proof.
  split; [done|].
  exact (proj1 (updateVideoTransceivers_fifo (indexOf [] ownGroup)
                  {| ids := [5%Z; 9%Z; 3%Z] |} scenarioA eq_refl
                  scenarioA_inactive)).
Defined.

Lemma updateVideoTransceivers_empty_witness :
  (useTransceivers scenarioA = true ∧ array {| ids := [] |} = [])
  ∧ (updateVideoTransceivers (indexOf [] ownGroup) {| ids := [] |}
       scenarioA).2
    = [0%Z; 0%Z; 0%Z].
Proof.
  split; [done|].
  exact (proj1 (updateVideoTransceivers_empty (indexOf [] ownGroup)
                  {| ids := [] |} scenarioA eq_refl eq_refl)).
Defined.

Lemma updateVideoTransceivers_setVideoInput_witness :
  updateVideoTransceivers indexB {| ids := [9%Z] |}
    (setVideoInput (Some video) scenarioB)
  = (setVideoInput (Some video)
       (updateVideoTransceivers indexB {| ids := [9%Z] |} scenarioB).1,
     (updateVideoTransceivers indexB {| ids := [9%Z] |} scenarioB).2).
Proof.
  exact (updateVideoTransceivers_setVideoInput indexB {| ids := [9%Z] |}
           (Some video) scenarioB scenarioB_camera_valid).
Defined.

Lemma updateVideoTransceivers_sender_settings_witness :
  updateVideoTransceivers indexB {| ids := [9%Z] |}
    (setVideoSendingBitrateKbps 300 sendingWorld)
  = (setVideoSendingBitrateKbps 300
       (updateVideoTransceivers indexB {| ids := [9%Z] |} sendingWorld).1,
     (updateVideoTransceivers indexB {| ids := [9%Z] |} sendingWorld).2).
Proof.
  exact (proj2 (updateVideoTransceivers_sender_settings indexB
                  {| ids := [9%Z] |} (Some lowPatch) 300 sendingWorld
                  sendingWorld_camera_valid)).
Defined.

Lemma replaceAudioTrack_after_setAudioInput_witness :
  (_localAudioTransceiver (ctl localWorld) = Some 0
   ∧ 0 < length (transceivers (connection localWorld)))
  ∧ (replaceAudioTrack (Some audio) (setAudioInput (Some audio) localWorld)).2
    = bool_decide (is_Some (Some audio)).
Proof.
  assert (0 < length (transceivers (connection localWorld))) as Hlt
    by (simpl; lia).
  split; [by split|].
  exact (replaceAudioTrack_after_setAudioInput (Some audio) (Some audio)
           localWorld 0 eq_refl Hlt).
Defined.

Lemma newWorld_validRefs : validRefs newWorld.
Proof. by split_and!. Qed.

Lemma setupLocalTransceivers_spec_witness :
  (useTransceivers newWorld = true ∧ validRefs newWorld)
  ∧ validRefs (setupLocalTransceivers true newWorld).
Proof.
  split; [split; [done|apply newWorld_validRefs]|].
  exact (proj1 (setupLocalTransceivers_spec true newWorld eq_refl
                  newWorld_validRefs)).
Defined.

Lemma setup_then_updateVideoTransceivers_witness :
  (useTransceivers newWorld = true
   ∧ transceivers (connection newWorld) = []
   ∧ _localAudioTransceiver (ctl newWorld) = None
   ∧ _localCameraTransceiver (ctl newWorld) = None)
  ∧ (updateVideoTransceivers indexB {| ids := [5%Z; 9%Z] |}
       (setupLocalTransceivers true newWorld)).2
    = 0%Z :: array {| ids := [5%Z; 9%Z] |}.
Proof.
  split; [by split_and!|].
  exact (proj1 (setup_then_updateVideoTransceivers indexB
                  {| ids := [5%Z; 9%Z] |} true newWorld
                  eq_refl eq_refl eq_refl eq_refl)).
Defined.

Lemma setVideoSendingBitrateKbps_noop_witness :
  (0 <=? 0)%float = true
  ∧ setVideoSendingBitrateKbps 0 sendingWorld = sendingWorld.
Proof.
  split; [done|].
  exact (setVideoSendingBitrateKbps_noop 0 sendingWorld
           (or_intror (or_intror eq_refl))).
Defined.

Lemma setVideoSendingBitrateKbps_spec_witness :
  (_localCameraTransceiver (ctl sendingWorld) = Some 0
   ∧ transceivers (connection sendingWorld) !! 0 = Some sendingCamera
   ∧ direction sendingCamera = sendrecv
   ∧ (9007199254740991 <=? 0)%float = false)
  ∧ ∃ new,
      setVideoSendingBitrateKbps 9007199254740991 sendingWorld
      = setTransceivers
          (<[0 := withSenderParameters {| encodings := Some new |}
                    sendingCamera]>
             (transceivers (connection sendingWorld)))
          sendingWorld
      ∧ ∀ layer, layer ∈ new →
                 layer !! "maxBitrate"
                 = Some (JsNumber 9007199254740990976).
Proof.
  split; [by split_and!|].
  destruct (setVideoSendingBitrateKbps_spec 9007199254740991 sendingWorld 0
              sendingCamera eq_refl eq_refl eq_refl eq_refl)
    as (new & Heq & Hmax & _).
  by exists new.
Defined.

Lemma setVideoSendingBitrateKbps_last_witness :
  (300 <=? 0)%float = false
  ∧ setVideoSendingBitrateKbps 300 (setVideoSendingBitrateKbps 150 sendingWorld)
    = setVideoSendingBitrateKbps 300 sendingWorld.
Proof.
  split; [done|].
  exact (setVideoSendingBitrateKbps_last 150 300 sendingWorld eq_refl).
Defined.

Lemma scenarioB_entries :
  [(5%Z, 1)] ≡ₚ map_to_list (streamIdToTransceiver (ctl scenarioB)).
Proof.
  simpl. by rewrite map_to_list_singleton.
Qed.

Lemma setStreamIdForMid_no_match_witness :
  [(5%Z, 1)] ≡ₚ map_to_list (streamIdToTransceiver (ctl scenarioB))
  ∧ setStreamIdForMid [(5%Z, 1)] "9" 7%Z scenarioB = scenarioB.
Proof.
  split; [apply scenarioB_entries|].
  apply (setStreamIdForMid_no_match [(5%Z, 1)] "9" 7%Z scenarioB
           scenarioB_entries).
  intros s i Hs. simpl in Hs.
  apply lookup_singleton_Some in Hs as [_ <-]. done.
Defined.

Lemma setStreamIdForMid_getMidForStreamId_witness :
  (streamIdToTransceiver (ctl scenarioB) !! 5%Z = Some 1
   ∧ mid <$> transceivers (connection scenarioB) !! 1 = Some (Some "1"))
  ∧ getMidForStreamId (setStreamIdForMid [(5%Z, 1)] "1" 7%Z scenarioB) 7%Z
    = Some (Some "1").
Proof.
  split; [by split|].
  exact (setStreamIdForMid_getMidForStreamId [(5%Z, 1)] "1" 7%Z scenarioB
           5%Z 1 scenarioB_entries eq_refl eq_refl).
Defined.

Lemma setStreamIdForMid_unique_witness :
  (streamIdToTransceiver (ctl scenarioB) !! 5%Z = Some 1
   ∧ mid <$> transceivers (connection scenarioB) !! 1 = Some (Some "1"))
  ∧ streamIdToTransceiver
      (ctl (setStreamIdForMid [(5%Z, 1)] "1" 7%Z scenarioB))
    = <[7%Z := 1]> (delete 5%Z (streamIdToTransceiver (ctl scenarioB))).
Proof.
  split; [by split|].
  apply (setStreamIdForMid_unique [(5%Z, 1)] "1" 7%Z scenarioB 5%Z 1
           scenarioB_entries eq_refl eq_refl).
  intros s i Hs _. simpl in Hs.
  by apply lookup_singleton_Some in Hs as [<- _].
Defined.

Lemma setEncodingParameters_install_witness :
  (_localCameraTransceiver (ctl cameraOnWorld) = Some 1
   ∧ transceivers (connection cameraOnWorld) !! 1
     = Some (withSender (replaceTrack (Some video)
                           (sender (freshTransceiver video sendrecv)))
               (freshTransceiver video sendrecv))
   ∧ lowPatch ≠ [])
  ∧ setEncodingParameters (Some lowPatch) cameraOnWorld
    = setTransceivers
        (<[1 := withSenderParameters {| encodings := Some lowPatch.*2 |}
                  (withSender (replaceTrack (Some video)
                                 (sender (freshTransceiver video sendrecv)))
                     (freshTransceiver video sendrecv))]>
           (transceivers (connection cameraOnWorld)))
        cameraOnWorld.
Proof.
  assert (lowPatch ≠ []) as Hne by done.
  split; [by split_and!|].
  exact (setEncodingParameters_install lowPatch cameraOnWorld 1 _
           eq_refl eq_refl eq_refl Hne (or_introl eq_refl)).
Defined.
